(** * inline: the [$] element builder

    A shallow embedding of the builder (its TypeScript source and the
    compiled [dist/inline.js] agree line by line): the three selector
    patterns, the host document facility the builder
    drives (element factory, text nodes, identifier, class list, child
    append, property write) as operations on an explicit node store, and
    the builder [$] itself, here called [dollar]. *)

From Stdlib Require Import Ascii String ZArith Lia.
From stdpp Require Import base option list strings pretty.

Set Warnings "-register-all".
Local Open Scope string_scope.
Local Open Scope list_scope.

(** ** Selector patterns *)

(** The character class [[a-zA-Z0-9-_]]: after the range [0-9] the two
    remaining atoms [-] and [_] are literal. *)
Definition in_range (lo hi c : ascii) : bool :=
  (N_of_ascii lo <=? N_of_ascii c)%N && (N_of_ascii c <=? N_of_ascii hi)%N.

Definition word_char (c : ascii) : bool :=
  in_range "a" "z" c || in_range "A" "Z" c || in_range "0" "9" c
  || Ascii.eqb c "-" || Ascii.eqb c "_".

(** The greedy group [([a-zA-Z0-9-_]+)] attempted at the start of [s]:
    the longest prefix of class characters (empty when the [+] fails). *)
Fixpoint word_run (s : string) : string :=
  match s with
  | String c s' => if word_char c then String c (word_run s') else ""
  | EmptyString => ""
  end.

(** A successful non-global match: index 0 is the whole match, index 1
    the capture group. *)
Record match_array := MatchArray { whole : string; group1 : string }.

(** [s.slice(start)] *)
Fixpoint slice (start : nat) (s : string) : string :=
  match start, s with
  | S k, String _ s' => slice k s'
  | _, _ => s
  end.

Module patterns.

(** [/^([a-zA-Z0-9-_]+)/] *)
Definition tag (s : string) : option match_array :=
  match word_run s with
  | EmptyString => None
  | r => Some (MatchArray r r)
  end.

(** [/\#([a-zA-Z0-9-_]+)/]: the leftmost position where a [#] is
    followed by a non-empty run. *)
Fixpoint id (s : string) : option match_array :=
  match s with
  | EmptyString => None
  | String c s' =>
      if Ascii.eqb c "#" then
        match word_run s' with
        | EmptyString => id s'
        | r => Some (MatchArray (String "#" r) r)
        end
      else id s'
  end.

(** [/\.([a-zA-Z0-9-_]+)/g]: every match, left to right; after a match
    the scan resumes at the end of it, so [skip] characters of the
    remaining input are passed over before the next attempt. *)
Fixpoint class_from (skip : nat) (s : string) : list string :=
  match s with
  | EmptyString => []
  | String c s' =>
      match skip with
      | S k => class_from k s'
      | O =>
          if Ascii.eqb c "." then
            match word_run s' with
            | EmptyString => class_from 0 s'
            | r => String "." r :: class_from (String.length r) s'
            end
          else class_from 0 s'
      end
  end.

(** [String.prototype.match] with a global pattern: the list of whole
    matches, or [null] when there is none. *)
Definition class (s : string) : option (list string) :=
  match class_from 0 s with
  | [] => None
  | ms => Some ms
  end.

End patterns.

(** ** Values, nodes and the node store *)

Abbreviation loc := nat.

(** Runtime values a caller can pass as a trailing argument.  A function
    is a reference into the table of callables of the host program; a
    node is a reference into the node store; a number carries its
    binary64 bit pattern, which the builder never inspects. *)
Inductive value :=
| VUndefined
| VNull
| VBoolean (b : bool)
| VNumber (bits : Z)
| VBigInt (n : Z)
| VSymbol (description : string)
| VString (s : string)
| VFunction (f : nat)
| VNode (l : loc)
| VObject (own : list (string * value)).

(** ASCII case mapping, as the element factory of an HTML document and
    the [tagName] attribute apply it. *)
Definition ascii_lower (c : ascii) : ascii :=
  if in_range "A" "Z" c then ascii_of_N (N_of_ascii c + 32) else c.

Definition ascii_upper (c : ascii) : ascii :=
  if in_range "a" "z" c then ascii_of_N (N_of_ascii c - 32) else c.

Fixpoint lower (s : string) : string :=
  match s with
  | EmptyString => EmptyString
  | String c s' => String (ascii_lower c) (lower s')
  end.

Fixpoint upper (s : string) : string :=
  match s with
  | EmptyString => EmptyString
  | String c s' => String (ascii_upper c) (upper s')
  end.

(** An element of the store: its local name (the tag name in the lower
    case the factory gives it), identifier, class list, children, and
    the properties it holds as an object of its own. *)
Module Element.
Record t := mk {
  localName : string;
  id : string;
  classList : list string;
  childNodes : list loc;
  own : list (string * value)
}.
(** [el.tagName]: the name in upper case. *)
Definition tagName (e : t) : string := upper (localName e).
End Element.

Inductive payload :=
| HTMLElement (e : Element.t)
| Text (data : string).

Record node := Node { parentNode : option loc; content : payload }.

Abbreviation heap := (list node).

Inductive exn :=
| DOMException (name : string)
| Thrown (v : value).

Inductive completion (A : Type) :=
| Normal (a : A)
| Throw (e : exn).
Arguments Normal {A} a.
Arguments Throw {A} e.

(** Computations over the node store that may throw. *)
Definition M (A : Type) : Type := heap -> heap * completion A.

Definition ret {A} (a : A) : M A := fun h => (h, Normal a).

Definition throw {A} (e : exn) : M A := fun h => (h, Throw e).

Definition bind {A B} (m : M A) (k : A -> M B) : M B :=
  fun h =>
    match m h with
    | (h', Normal a) => k a h'
    | (h', Throw e) => (h', Throw e)
    end.

Notation "'do' x <- m ; k" := (bind m (fun x => k))
  (at level 10, x name, m at level 100, k at level 200,
   format "'[v' 'do'  x  <-  m ; '/' k ']'").
Notation "'do_' m ; k" := (bind m (fun _ => k))
  (at level 10, m at level 100, k at level 200,
   format "'[v' 'do_'  m ; '/' k ']'").

(** [Array.prototype.forEach]: the callback runs on each entry in index
    order; a throw leaves the loop at once. *)
Fixpoint forEach {A} (xs : list A) (f : A -> M unit) : M unit :=
  match xs with
  | [] => ret tt
  | x :: xs' => do_ f x; forEach xs' f
  end.

(** ** The host document facility *)

(** Rewrite the element stored at [l]; a text node or a vacant location
    is left as it is. *)
Definition update_element (f : Element.t -> Element.t) (l : loc) (h : heap) : heap :=
  alter (fun n =>
           match content n with
           | HTMLElement e => Node (parentNode n) (HTMLElement (f e))
           | Text _ => n
           end) l h.

Definition set_parent (p : option loc) (l : loc) (h : heap) : heap :=
  alter (fun n => Node p (content n)) l h.

Definition with_id (s : string) (e : Element.t) : Element.t :=
  Element.mk (Element.localName e) s (Element.classList e)
             (Element.childNodes e) (Element.own e).

Definition with_classList (cs : list string) (e : Element.t) : Element.t :=
  Element.mk (Element.localName e) (Element.id e) cs
             (Element.childNodes e) (Element.own e).

Definition with_childNodes (ls : list loc) (e : Element.t) : Element.t :=
  Element.mk (Element.localName e) (Element.id e) (Element.classList e)
             ls (Element.own e).

Definition with_own (ps : list (string * value)) (e : Element.t) : Element.t :=
  Element.mk (Element.localName e) (Element.id e) (Element.classList e)
             (Element.childNodes e) ps.

(** [prop instanceof HTMLElement]: the element [prop] refers to, if it
    is one. *)
Definition instanceof_HTMLElement (h : heap) (v : value) : option loc :=
  match v with
  | VNode l =>
      match h !! l with
      | Some (Node _ (HTMLElement _)) => Some l
      | _ => None
      end
  | _ => None
  end.

(** ASCII whitespace, which a class token must not contain. *)
Definition ascii_whitespace (c : ascii) : bool :=
  let n := N_of_ascii c in
  (n =? 9)%N || (n =? 10)%N || (n =? 12)%N || (n =? 13)%N || (n =? 32)%N.

Fixpoint has_whitespace (s : string) : bool :=
  match s with
  | EmptyString => false
  | String c s' => ascii_whitespace c || has_whitespace s'
  end.

(** The validation pass of [DOMTokenList.add]: the first offending token
    decides the error. *)
Fixpoint token_error (tokens : list string) : option exn :=
  match tokens with
  | [] => None
  | t :: ts =>
      if String.eqb t "" then Some (DOMException "SyntaxError")
      else if has_whitespace t then Some (DOMException "InvalidCharacterError")
      else token_error ts
  end.

(** Appending to an ordered token set: a token already present stays
    where it is. *)
Fixpoint token_set_append (set : list string) (tokens : list string) : list string :=
  match tokens with
  | [] => set
  | t :: ts =>
      token_set_append (if bool_decide (t ∈ set) then set else set ++ [t]) ts
  end.

(** [el.classList.add(...tokens)] *)
Definition classList_add (el : loc) (tokens : list string) : M unit :=
  fun h =>
    match token_error tokens with
    | Some e => (h, Throw e)
    | None =>
        (update_element
           (fun e => with_classList (token_set_append (Element.classList e) tokens) e)
           el h,
         Normal tt)
    end.

(** Walking up the parent chain from [x]: is [a] the node [x] itself or
    one of its ancestors?  A chain in a store of [n] nodes has at most
    [n] links. *)
Fixpoint inclusive_ancestor (fuel : nat) (h : heap) (a x : loc) : bool :=
  Nat.eqb a x ||
  match fuel with
  | O => false
  | S k =>
      match h !! x with
      | Some (Node (Some p) _) => inclusive_ancestor k h a p
      | _ => false
      end
  end.

(** [parent.appendChild(child)]: the child leaves its former parent and
    becomes the last child of [parent].  The insertion is refused when
    [parent] cannot have children or [child] is [parent] or one of its
    ancestors. *)
Definition appendChild (parent child : loc) : M loc :=
  fun h =>
    match h !! parent, h !! child with
    | Some (Node _ (HTMLElement _)), Some c =>
        if inclusive_ancestor (length h) h child parent then
          (h, Throw (DOMException "HierarchyRequestError"))
        else
          let h1 :=
            match parentNode c with
            | Some p =>
                update_element
                  (fun e => with_childNodes
                              (filter (fun x => x ≠ child) (Element.childNodes e)) e)
                  p h
            | None => h
            end in
          let h2 := set_parent (Some parent) child h1 in
          let h3 :=
            update_element
              (fun e => with_childNodes (Element.childNodes e ++ [child]) e)
              parent h2 in
          (h3, Normal child)
    | _, _ => (h, Throw (DOMException "HierarchyRequestError"))
    end.

(** [document.createTextNode(data)] *)
Definition createTextNode (data : string) : M loc :=
  fun h => (h ++ [Node None (Text data)], Normal (length h)).

(** Writing an own property: an existing key keeps its place. *)
Fixpoint own_set (k : string) (v : value) (ps : list (string * value))
  : list (string * value) :=
  match ps with
  | [] => [(k, v)]
  | (k', v') :: ps' =>
      if String.eqb k' k then (k, v) :: ps' else (k', v') :: own_set k v ps'
  end.

(** The characters of a string as the index properties of its wrapper. *)
Fixpoint index_properties (i : nat) (s : string) : list (string * value) :=
  match s with
  | EmptyString => []
  | String c s' => (pretty i, VString (String c "")) :: index_properties (S i) s'
  end.

(** The own enumerable properties [Object.assign] reads from a source, in
    the order it visits them: none for [null], [undefined] and the
    wrappers of the other primitives except strings. *)
Definition own_enumerable (h : heap) (source : value) : list (string * value) :=
  match source with
  | VObject own => own
  | VString s => index_properties 0 s
  | VNode l =>
      match h !! l with
      | Some (Node _ (HTMLElement e)) => Element.own e
      | _ => []
      end
  | _ => []
  end.

(** ** The builder *)

(** The element stored at a location, if there is one. *)
Definition element_at (h : heap) (l : loc) : option Element.t :=
  match h !! l with
  | Some (Node _ (HTMLElement e)) => Some e
  | _ => None
  end.

(** What the host decides and the builder takes as given: which names
    the element factory accepts; how a value that is not a string is
    turned into one, or refused, where a string is wanted; what each
    callable of the program does to the node store when it is applied to
    its arguments; and what writing a property other than the identifier
    onto an element does, property by property, since that goes through
    the accessors of the element (it may change the classes or the
    children, coerce the value, or raise when the property is read-only).

    Two facts hold of every host.  Nodes are objects: neither a callable
    nor a property write makes an element of the store vanish or turn
    into something else.  And only the identifier's own setter changes
    an identifier. *)
Class Host := {
  valid_name : string -> bool;
  ToString : value -> completion string;
  Call : nat -> list value -> M value;
  Put : loc -> string -> value -> M unit;
  Call_persists :
    ∀ f args (h h' : heap) r l,
      Call f args h = (h', r) ->
      is_Some (element_at h l) -> is_Some (element_at h' l);
  Put_persists :
    ∀ el k v (h h' : heap) r l e,
      k ≠ "id" ->
      Put el k v h = (h', r) ->
      element_at h l = Some e ->
      ∃ e', element_at h' l = Some e' ∧ Element.id e' = Element.id e
}.

Section Builder.

Context `{Host}.

(** [document.createElement(localName)] in an HTML document: a name
    the factory accepts is put in ASCII lower case. *)
Definition createElement (localName : string) : M loc :=
  fun h =>
    if valid_name localName then
      (h ++ [Node None (HTMLElement (Element.mk (lower localName) "" [] [] []))],
       Normal (length h))
    else (h, Throw (DOMException "InvalidCharacterError")).

(** The conversion a setter that wants a string applies to its
    argument. *)
Definition DOMString (v : value) : completion string :=
  match v with
  | VString s => Normal s
  | _ => ToString v
  end.

(** [el.id = v] *)
Definition set_id (el : loc) (v : value) : M unit :=
  fun h =>
    match DOMString v with
    | Normal s => (update_element (with_id s) el h, Normal tt)
    | Throw e => (h, Throw e)
    end.

(** [el[k] = v]: the identifier has its setter here, every other key is
    written the way the host writes it. *)
Definition element_set (el : loc) (k : string) (v : value) : M unit :=
  if String.eqb k "id" then set_id el v else Put el k v.

(** [Object.assign(target, source)] *)
Definition Object_assign (target : loc) (source : value) : M loc :=
  fun h =>
    (do_ forEach (own_enumerable h source)
                 (fun kv => element_set target (fst kv) (snd kv));
     ret target) h.

(** The body of the loop over the trailing arguments. *)
Definition each_prop (el : loc) (prop : value) : M unit :=
  fun h =>
    match instanceof_HTMLElement h prop with
    | Some child => (do_ appendChild el child; ret tt) h
    | None =>
        match prop with
        | VFunction f => (do_ Call f [VNode el]; ret tt) h
        | VString s =>
            (do t <- createTextNode s; do_ appendChild el t; ret tt) h
        | _ => (do_ Object_assign el prop; ret tt) h
        end
    end.

(** A string is truthy unless it is empty. *)
Definition truthy (s : string) : bool := negb (String.eqb s "").

(** [$(selector, ...rest)] *)
Definition dollar (selector : string) (rest : list value) : M loc :=
  let tag :=
    match patterns.tag selector with
    | Some m => group1 m
    | None => "div"
    end in
  do el <- createElement tag;
  let id := group1 <$> patterns.id selector in
  do_ match id with
      | Some i => if truthy i then set_id el (VString i) else ret tt
      | None => ret tt
      end;
  let classes := map (slice 1) <$> patterns.class selector in
  do_ match classes with
      | Some cs => classList_add el cs
      | None => ret tt
      end;
  do_ forEach rest (each_prop el);
  ret el.

End Builder.

(** ** A sample host

    A small host to run the builder on.  Names that start with a letter
    or an underscore are accepted.  Callable 0 throws; callable 1 sets
    the [title] property of the element it is given; callable 2 gives it
    one more text child; callable 3 looks at node 0, which it knows from
    its surroundings, and when that is an element other than the one it
    is given it titles its argument [again]; every other callable does
    nothing.  Of the accessors of an element the host has [className],
    which replaces the class list, and a few read-only ones, which
    refuse the write; any other key becomes a property of the object
    itself, which is also how a reflected property such as [title]
    reads back a string written to it. *)
Definition sample_valid_name (s : string) : bool :=
  match s with
  | String c _ =>
      in_range "a" "z" c || in_range "A" "Z" c || Ascii.eqb c "_"
  | EmptyString => false
  end.

Definition TypeError : exn := Thrown (VObject [("name", VString "TypeError")]).

Definition sample_ToString (v : value) : completion string :=
  match v with
  | VUndefined => Normal "undefined"
  | VNull => Normal "null"
  | VBoolean true => Normal "true"
  | VBoolean false => Normal "false"
  | VBigInt n => Normal (pretty n)
  | VString s => Normal s
  | VSymbol _ => Throw TypeError
  | _ => Normal "[object Object]"
  end.

Definition sample_Call (f : nat) (args : list value) : M value :=
  match f, args with
  | 0, _ => throw (Thrown (VString "boom"))
  | 1, VNode l :: _ =>
      fun h =>
        (update_element
           (fun e => with_own (own_set "title" (VString "t") (Element.own e)) e) l h,
         Normal VUndefined)
  | 2, VNode l :: _ =>
      do t <- createTextNode "more"; do_ appendChild l t; ret VUndefined
  | 3, VNode l :: _ =>
      fun h =>
        match element_at h 0 with
        | Some _ =>
            if Nat.eqb l 0 then (h, Normal VUndefined)
            else
              (update_element
                 (fun e => with_own (own_set "title" (VString "again")
                                       (Element.own e)) e) l h,
               Normal VUndefined)
        | None => (h, Normal VUndefined)
        end
  | _, _ => ret VUndefined
  end.

(** The tokens of a string: its pieces between ASCII whitespace. *)
Fixpoint split_tokens (token : string) (s : string) : list string :=
  match s with
  | EmptyString => if String.eqb token "" then [] else [token]
  | String c s' =>
      if ascii_whitespace c then
        if String.eqb token "" then split_tokens "" s'
        else token :: split_tokens "" s'
      else split_tokens (token +:+ String c "") s'
  end.

Definition sample_read_only : list string :=
  ["tagName"; "localName"; "children"; "childNodes"; "parentNode"].

Definition sample_Put (el : loc) (k : string) (v : value) : M unit :=
  fun h =>
    if String.eqb k "className" then
      match (match v with VString s => Normal s | _ => sample_ToString v end) with
      | Normal s =>
          (update_element
             (with_classList (token_set_append [] (split_tokens "" s))) el h,
           Normal tt)
      | Throw e => (h, Throw e)
      end
    else if bool_decide (k ∈ sample_read_only) then (h, Throw TypeError)
    else
      (update_element (fun e => with_own (own_set k v (Element.own e)) e) el h,
       Normal tt).

(** ** Vocabulary of the statements *)

(** Every character of [s] belongs to the class of the patterns. *)
Fixpoint all_word (s : string) : bool :=
  match s with
  | EmptyString => true
  | String c s' => word_char c && all_word s'
  end.

(** A run: one or more class characters. *)
Definition run (s : string) : Prop := s ≠ "" ∧ all_word s = true.

Fixpoint occurs (c : ascii) (s : string) : bool :=
  match s with
  | EmptyString => false
  | String c' s' => Ascii.eqb c' c || occurs c s'
  end.

(** What the three scans of [$] extract from a selector. *)
Definition selector_tag (selector : string) : string :=
  match patterns.tag selector with
  | Some m => group1 m
  | None => "div"
  end.

Definition selector_id (selector : string) : option string :=
  group1 <$> patterns.id selector.

Definition selector_classes (selector : string) : list string :=
  default [] (map (slice 1) <$> patterns.class selector).

(** The element as it stands when the loop over the trailing arguments
    starts. *)
Definition fresh_element (selector : string) : Element.t :=
  Element.mk (lower (selector_tag selector))
             (default "" (selector_id selector))
             (token_set_append [] (selector_classes selector))
             [] [].

(** The primitive values: everything but functions, nodes and objects. *)
Definition primitive (v : value) : bool :=
  match v with
  | VFunction _ | VNode _ | VObject _ => false
  | _ => true
  end.

(** Parent references never point outside the store. *)
Definition parents_in_bounds (h : heap) : Prop :=
  ∀ l p c, h !! l = Some (Node (Some p) c) -> p < length h.

(** The value a bag holds under a key: when the list repeats the key the
    last entry counts, as it does for the writes. *)
Fixpoint own_get (k : string) (ps : list (string * value)) : option value :=
  match ps with
  | [] => None
  | (k', v) :: ps' =>
      match own_get k ps' with
      | Some v' => Some v'
      | None => if String.eqb k' k then Some v else None
      end
  end.

(** Arguments that may write the identifier: a function may do anything,
    a bag writes it when it has an [id] key. *)
Definition writes_id (v : value) : bool :=
  match v with
  | VFunction _ => true
  | VObject own =>
      match own_get "id" own with
      | Some _ => true
      | None => false
      end
  | _ => false
  end.

(** An element record without its list of children. *)
Definition skeleton (e : Element.t) : Element.t := with_childNodes [] e.

(** Two nodes of a store with the same structure: text nodes with the
    same data, or elements with the same tag name, identifier, classes
    and own properties whose children are pairwise of the same
    structure. *)
Inductive equivalent (h : heap) : loc -> loc -> Prop :=
| equivalent_Text l1 l2 p1 p2 d :
    h !! l1 = Some (Node p1 (Text d)) ->
    h !! l2 = Some (Node p2 (Text d)) ->
    equivalent h l1 l2
| equivalent_HTMLElement l1 l2 p1 p2 e1 e2 :
    h !! l1 = Some (Node p1 (HTMLElement e1)) ->
    h !! l2 = Some (Node p2 (HTMLElement e2)) ->
    Element.localName e1 = Element.localName e2 ->
    Element.id e1 = Element.id e2 ->
    Element.classList e1 = Element.classList e2 ->
    Element.own e1 = Element.own e2 ->
    Forall2 (equivalent h) (Element.childNodes e1) (Element.childNodes e2) ->
    equivalent h l1 l2.

(** The text nodes the loop hangs under [el]. *)
Definition texts (el : loc) (data : list string) : heap :=
  map (fun d => Node (Some el) (Text d)) data.

(** Callables never remove an element from the store or turn it into
    something else. *)
Definition Call_keeps_elements `{Host} : Prop :=
  ∀ f args (h h' : heap) r l,
    Call f args h = (h', r) ->
    is_Some (element_at h l) -> is_Some (element_at h' l).

(** The tree that hangs at a node: the data of a text node, or the
    fields of an element other than its children together with the
    trees of the children. *)
Inductive tree : Type :=
| TText (data : string)
| TElement (fields : Element.t) (children : list tree).

Definition all2 {A B} (R : A -> B -> Prop) : list A -> list B -> Prop :=
  fix go (cs : list A) (ts : list B) {struct ts} : Prop :=
    match ts, cs with
    | [], [] => True
    | t :: ts', c :: cs' => R c t ∧ go cs' ts'
    | _, _ => False
    end.

(** [shape m h parent l t]: in the store [h] the tree [t] hangs at the
    location [l], whose parent reference is [parent]; every node of the
    tree refers to the node above it as its parent and sits at a
    location from [m] on. *)
Fixpoint shape (m : nat) (h : heap) (parent : option loc) (l : loc) (t : tree)
  {struct t} : Prop :=
  m <= l ∧
  match t with
  | TText data => h !! l = Some (Node parent (Text data))
  | TElement fields children =>
      ∃ e, h !! l = Some (Node parent (HTMLElement e)) ∧
           skeleton e = fields ∧
           all2 (shape m h (Some l)) (Element.childNodes e) children
  end.

(** What an operation on an element may be as a function of the tree at
    the element: the new fields and subtrees, or what it throws. *)
Definition transformer : Type :=
  Element.t -> list tree -> completion (Element.t * list tree).

(** The operation [op] on a parentless element does what [g] says,
    whatever else the store holds, and when it returns it has left the
    store below the tree as it was. *)
Definition acts_as (op : loc -> M unit) (g : transformer) : Prop :=
  ∀ m (h : heap) l fields children,
    shape m h None l (TElement fields children) ->
    match g fields children with
    | Normal (fields', children') =>
        ∃ h', op l h = (h', Normal tt) ∧
              take m h' = take m h ∧
              shape m h' None l (TElement fields' children')
    | Throw x => ∃ h', op l h = (h', Throw x)
    end.

(** An operation that is determined by the tree at the element it is
    given. *)
Definition tree_function (op : loc -> M unit) : Prop := ∃ g, acts_as op g.

(** An operation without effect outside the element it is given: when
    it returns, the store below the tree of the element is as it was and
    a tree hangs at the element again.  What it does to the tree may
    depend on the rest of the store. *)
Definition no_outside_effect (op : loc -> M unit) : Prop :=
  ∀ m (h h' : heap) l fields children,
    shape m h None l (TElement fields children) ->
    op l h = (h', Normal tt) ->
    take m h' = take m h ∧
    ∃ fields' children', shape m h' None l (TElement fields' children').

(** A trailing argument whose operations on the new element all satisfy
    [C]: no node; a function, applied to the element; a bag, whose
    entries other than the identifier are written as the host writes
    them; or a primitive value. *)
Definition argument_ops `{Host} (C : (loc -> M unit) -> Prop) (v : value) : Prop :=
  match v with
  | VNode _ => False
  | VFunction f => C (fun l => do_ Call f [VNode l]; ret tt)
  | VObject bag =>
      Forall (fun kv => fst kv ≠ "id" -> C (fun l => Put l (fst kv) (snd kv))) bag
  | _ => True
  end.

(** No node among the arguments and no effect outside the new element. *)
Definition quiet `{Host} : value -> Prop := argument_ops no_outside_effect.

(** No node among the arguments, and callables and property writes that
    are determined by the tree at the element. *)
Definition self_contained `{Host} : value -> Prop := argument_ops tree_function.

(** ** Facts about the patterns *)

Lemma ascii_upper_lower c : ascii_upper (ascii_lower c) = ascii_upper c.
Proof. by destruct c as [[] [] [] [] [] [] [] []]. Qed.

Lemma upper_lower s : upper (lower s) = upper s.
Proof.
  induction s as [|c s IH]; simpl; [done|].
  by rewrite ascii_upper_lower, IH.
Qed.


Lemma word_char_not_hash c : word_char c = true -> Ascii.eqb c "#" = false.
Proof.
  destruct c as [[] [] [] [] [] [] [] []]; vm_compute; congruence.
Qed.

Lemma word_char_not_dot c : word_char c = true -> Ascii.eqb c "." = false.
Proof.
  destruct c as [[] [] [] [] [] [] [] []]; vm_compute; congruence.
Qed.

Lemma word_char_not_whitespace c :
  word_char c = true -> ascii_whitespace c = false.
Proof.
  destruct c as [[] [] [] [] [] [] [] []]; vm_compute; congruence.
Qed.

Lemma append_cons c (w s : string) : String c w +:+ s = String c (w +:+ s).
Proof. reflexivity. Qed.

Lemma append_empty_r (s : string) : s +:+ "" = s.
Proof.
  induction s as [|c s IH]; [done|]. by rewrite append_cons, IH.
Qed.

Lemma all_word_word_run s : all_word (word_run s) = true.
Proof.
  induction s as [|c s IH]; simpl; [done|].
  destruct (word_char c) eqn:Hc; simpl; [|done].
  by rewrite Hc, IH.
Qed.

Lemma word_run_app w s :
  all_word w = true -> word_run (w +:+ s) = w +:+ word_run s.
Proof.
  induction w as [|c w IH]; [done|]. rewrite append_cons. simpl.
  intros [Hc Hw]%andb_prop. rewrite Hc. by rewrite IH.
Qed.

Lemma word_run_stop c s : word_char c = false -> word_run (String c s) = "".
Proof. intros Hc. simpl. by rewrite Hc. Qed.

Lemma all_word_no_whitespace s : all_word s = true -> has_whitespace s = false.
Proof.
  induction s as [|c s IH]; simpl; [done|].
  intros [Hc Hs]%andb_prop.
  by rewrite (word_char_not_whitespace c Hc), IH.
Qed.

Lemma tag_of_run w c s :
  run w -> word_char c = false ->
  patterns.tag (w +:+ String c s) = Some (MatchArray w w).
Proof.
  intros [Hne Hw] Hc. unfold patterns.tag.
  rewrite (word_run_app _ _ Hw), (word_run_stop _ _ Hc), append_empty_r.
  destruct w; [done|reflexivity].
Qed.

Lemma tag_none s : word_run s = "" -> patterns.tag s = None.
Proof. intros Hs. unfold patterns.tag. by rewrite Hs. Qed.

Lemma id_skip_run w s :
  all_word w = true -> patterns.id (w +:+ s) = patterns.id s.
Proof.
  induction w as [|c w IH]; [done|]. rewrite append_cons. simpl.
  intros [Hc Hw]%andb_prop.
  by rewrite (word_char_not_hash c Hc), IH.
Qed.

Lemma id_at_hash r c s :
  run r -> word_char c = false ->
  patterns.id (String "#" (r +:+ String c s))
  = Some (MatchArray (String "#" r) r).
Proof.
  intros [Hne Hr] Hc. simpl.
  rewrite (word_run_app _ _ Hr), (word_run_stop _ _ Hc), append_empty_r.
  destruct r; [done|reflexivity].
Qed.

Lemma id_group_nonempty s m : patterns.id s = Some m -> group1 m ≠ "".
Proof.
  induction s as [|c s IH]; simpl; [done|].
  destruct (Ascii.eqb c "#"); [|done].
  destruct (word_run s) eqn:Hr; [done|].
  intros [= <-]. done.
Qed.

Lemma id_none_without_hash s : occurs "#" s = false -> patterns.id s = None.
Proof.
  induction s as [|c s IH]; simpl; [done|].
  intros [Hc Hs]%orb_false_elim. rewrite Hc. auto.
Qed.

Lemma class_from_skip_run w s :
  all_word w = true ->
  patterns.class_from (String.length w) (w +:+ s) = patterns.class_from 0 s.
Proof.
  induction w as [|c w IH]; [done|]. rewrite append_cons. simpl.
  intros [_ Hw]%andb_prop. auto.
Qed.

Lemma class_from_over_run w s :
  all_word w = true ->
  patterns.class_from 0 (w +:+ s) = patterns.class_from 0 s.
Proof.
  induction w as [|c w IH]; [done|]. rewrite append_cons. simpl.
  intros [Hc Hw]%andb_prop.
  by rewrite (word_char_not_dot c Hc), IH.
Qed.

Lemma class_from_at_dot r s :
  run r -> word_run s = "" ->
  patterns.class_from 0 (String "." (r +:+ s))
  = String "." r :: patterns.class_from 0 s.
Proof.
  intros [Hne Hr] Hs. simpl.
  rewrite (word_run_app _ _ Hr), Hs, append_empty_r.
  destruct r as [|a r]; [done|].
  f_equal. by apply (class_from_skip_run (String a r)).
Qed.

Lemma class_from_none_without_dot k s :
  occurs "." s = false -> patterns.class_from k s = [].
Proof.
  revert k. induction s as [|c s IH]; simpl; [done|].
  intros k [Hc Hs]%orb_false_elim. rewrite Hc. destruct k; auto.
Qed.

(** Every match of the class pattern is a dot followed by a run. *)
Lemma class_from_matches k s :
  Forall (fun m => ∃ r, m = String "." r ∧ run r) (patterns.class_from k s).
Proof.
  revert k. induction s as [|c s IH]; intros k; simpl; [constructor|].
  destruct k; [|apply IH].
  destruct (Ascii.eqb c "."); [|apply IH].
  destruct (word_run s) eqn:Hr; [apply IH|].
  constructor; [|apply IH].
  eexists; split; [reflexivity|]. split; [done|].
  rewrite <- Hr. apply all_word_word_run.
Qed.

Lemma token_error_runs ts : Forall run ts -> token_error ts = None.
Proof.
  induction 1 as [|t ts [Hne Hw] _ IH]; simpl; [done|].
  destruct (String.eqb_spec t ""); [done|].
  by rewrite (all_word_no_whitespace t Hw).
Qed.

Lemma selector_classes_runs s : Forall run (selector_classes s).
Proof.
  unfold selector_classes, patterns.class.
  assert (Forall run (map (slice 1) (patterns.class_from 0 s))) as Hm.
  { induction (class_from_matches 0 s) as [|m ms (r & -> & Hr) _ IH];
      simpl; constructor; assumption. }
  destruct (patterns.class_from 0 s) as [|m ms]; [constructor|exact Hm].
Qed.

(** ** Facts about the node store *)

Lemma update_element_at f l (h : heap) p e :
  h !! l = Some (Node p (HTMLElement e)) ->
  update_element f l h = <[l := Node p (HTMLElement (f e))]> h.
Proof.
  intros Hl. unfold update_element. rewrite list_insert_alter.
  apply list_alter_ext; [|done].
  intros n Hn. by simplify_eq.
Qed.

Lemma update_element_fresh f (h : heap) p e :
  update_element f (length h) (h ++ [Node p (HTMLElement e)])
  = h ++ [Node p (HTMLElement (f e))].
Proof.
  unfold update_element.
  rewrite alter_app_r_alt by lia. by rewrite Nat.sub_diag.
Qed.

Lemma lookup_fresh (h : heap) n : (h ++ [n]) !! length h = Some n.
Proof. rewrite lookup_app_r by lia. by rewrite Nat.sub_diag. Qed.

Lemma lookup_update_element f l (h : heap) l' :
  update_element f l h !! l'
  = if decide (l = l') then
      (fun n => match content n with
                | HTMLElement e => Node (parentNode n) (HTMLElement (f e))
                | Text _ => n
                end) <$> h !! l'
    else h !! l'.
Proof.
  unfold update_element. case_decide as Hl.
  - subst. apply list_lookup_alter_eq.
  - by apply list_lookup_alter_ne.
Qed.

Lemma lookup_set_parent p l (h : heap) l' :
  set_parent p l h !! l'
  = if decide (l = l') then (fun n => Node p (content n)) <$> h !! l'
    else h !! l'.
Proof.
  unfold set_parent. case_decide as Hl.
  - subst. apply list_lookup_alter_eq.
  - by apply list_lookup_alter_ne.
Qed.

Lemma element_at_update_element f l (h : heap) l' :
  element_at (update_element f l h) l'
  = if decide (l = l') then f <$> element_at h l' else element_at h l'.
Proof.
  unfold element_at. rewrite lookup_update_element.
  case_decide; [|done]. by destruct (h !! l') as [[p [e|d]]|].
Qed.

Lemma element_at_set_parent p l (h : heap) l' :
  element_at (set_parent p l h) l' = element_at h l'.
Proof.
  unfold element_at. rewrite lookup_set_parent.
  case_decide; [|done]. by destruct (h !! l') as [[q [e|d]]|].
Qed.

Lemma element_at_app_text (h : heap) p d l :
  element_at (h ++ [Node p (Text d)]) l = element_at h l.
Proof.
  unfold element_at. destruct (decide (l < length h)) as [Hl|Hl].
  - by rewrite lookup_app_l.
  - rewrite lookup_app_r, (lookup_ge_None_2 h l) by lia.
    by destruct (l - length h) as [|[|k]].
Qed.

(** A node added at the end of a store with parent references in bounds
    is not an ancestor of any node that was there before. *)
Lemma inclusive_ancestor_new fuel (h : heap) n x :
  parents_in_bounds h -> x < length h ->
  inclusive_ancestor fuel (h ++ [n]) (length h) x = false.
Proof.
  intros Hb. revert x. induction fuel as [|k IH]; intros x Hx; simpl.
  - rewrite orb_false_r. apply Nat.eqb_neq. lia.
  - apply orb_false_intro; [apply Nat.eqb_neq; lia|].
    rewrite lookup_app_l by done.
    destruct (h !! x) as [[[p|] c]|] eqn:Hl; [|done..].
    apply IH. by eapply Hb.
Qed.

(** Nor is it one of a node without parent. *)
Lemma inclusive_ancestor_root fuel (h : heap) a x c :
  h !! x = Some (Node None c) -> a ≠ x ->
  inclusive_ancestor fuel h a x = false.
Proof.
  intros Hx Ha. destruct fuel; simpl.
  - rewrite orb_false_r. by apply Nat.eqb_neq.
  - rewrite Hx, orb_false_r. by apply Nat.eqb_neq.
Qed.

(** [appendChild] rewrites lists of children and parent references, and
    nothing else: whether it succeeds or not, every location holds an
    element with the same fields as before, or none as before. *)
Lemma appendChild_skeleton parent child (h h' : heap) r l :
  appendChild parent child h = (h', r) ->
  skeleton <$> element_at h' l = skeleton <$> element_at h l.
Proof.
  unfold appendChild.
  destruct (h !! parent) as [[pp [pe|pd]]|]; try by intros [= <- _].
  destruct (h !! child) as [c|]; [|by intros [= <- _]].
  destruct (inclusive_ancestor _ _ _ _); [by intros [= <- _]|].
  intros [= <- _].
  rewrite element_at_update_element, element_at_set_parent.
  assert (skeleton <$>
            element_at
              match parentNode c with
              | Some p =>
                  update_element
                    (fun e => with_childNodes
                                (filter (fun x => x ≠ child) (Element.childNodes e)) e)
                    p h
              | None => h
              end l
          = skeleton <$> element_at h l) as Hin.
  { destruct (parentNode c) as [p0|]; [|done].
    rewrite element_at_update_element.
    case_decide; [|done]. by destruct (element_at h l). }
  case_decide; [|exact Hin].
  rewrite <- Hin. by destruct (element_at _ l).
Qed.

Lemma string_or_not v : (∃ s, v = VString s) ∨ (∀ s, v ≠ VString s).
Proof. destruct v; eauto. Qed.

Lemma function_or_not v : (∃ f, v = VFunction f) ∨ (∀ f, v ≠ VFunction f).
Proof. destruct v; eauto. Qed.

Lemma insert_twice_app (h t1 t2 : heap) l x x' :
  l < length h ->
  <[l := x']> (<[l := x]> h ++ t1) ++ t2 = <[l := x']> h ++ (t1 ++ t2).
Proof.
  intros Hl. rewrite insert_app_l by by rewrite length_insert.
  by rewrite list_insert_insert_eq, app_assoc.
Qed.

(** ** Trees in the store *)

Lemma tree_ind' (P : tree -> Prop) :
  (∀ d, P (TText d)) ->
  (∀ f ts, Forall P ts -> P (TElement f ts)) ->
  ∀ t, P t.
Proof.
  intros Ht He. fix IH 1. intros [d|f ts].
  - apply Ht.
  - apply He. induction ts as [|t ts IHts]; constructor; [apply IH|exact IHts].
Qed.

Lemma all2_Forall2 {A B} (R : A -> B -> Prop) cs ts :
  all2 R cs ts <-> Forall2 R cs ts.
Proof.
  revert cs. induction ts as [|t ts IH]; intros [|c cs]; simpl.
  - split; [constructor|done].
  - split; [done|by inversion 1].
  - split; [done|by inversion 1].
  - rewrite IH. split.
    + intros [? ?]. by constructor.
    + by inversion 1.
Qed.

Lemma shape_TElement m (h : heap) p l f ts :
  shape m h p l (TElement f ts) <->
  m <= l ∧
  ∃ e, h !! l = Some (Node p (HTMLElement e)) ∧
       skeleton e = f ∧
       Forall2 (shape m h (Some l)) (Element.childNodes e) ts.
Proof. simpl. by setoid_rewrite all2_Forall2. Qed.

Lemma Forall2_Forall_r {A B} (P : B -> Prop) (R R' : A -> B -> Prop) cs ts :
  Forall P ts ->
  (∀ c t, P t -> R c t -> R' c t) ->
  Forall2 R cs ts -> Forall2 R' cs ts.
Proof.
  intros HP Himp HR. induction HR as [|c t cs ts Hct HR IH]; [constructor|].
  apply Forall_cons in HP as [Ht HP]. constructor; [by apply Himp|by apply IH].
Qed.

Lemma shape_lookup m (h : heap) p l t :
  shape m h p l t -> m <= l ∧ l < length h.
Proof.
  destruct t as [d|f ts]; simpl.
  - intros [Hm Hl]. split; [done|]. by eapply lookup_lt_Some.
  - intros [Hm (e & Hl & _)]. split; [done|]. by eapply lookup_lt_Some.
Qed.

(** A tree stays where it is when the region is widened. *)
Lemma shape_mono m m' (h : heap) t :
  m' <= m -> ∀ p l, shape m h p l t -> shape m' h p l t.
Proof.
  intros Hm. induction t as [d|f ts IH] using tree_ind'; intros p l.
  - simpl. intros [? ?]. split; [lia|done].
  - rewrite !shape_TElement. intros [Hl (e & He & Hf & Hch)].
    split; [lia|]. exists e. split; [done|]. split; [done|].
    eapply Forall2_Forall_r; [exact IH| |exact Hch].
    intros c t Ht. apply Ht.
Qed.

(** A tree stays where it is when the nodes it is made of stay: all the
    nodes of the store, or the nodes with a parent for a tree that hangs
    below another node. *)
Lemma shape_agree m (h h' : heap) t :
  ∀ p l,
    (∀ x n, h !! x = Some n -> (is_Some p -> is_Some (parentNode n)) ->
            h' !! x = Some n) ->
    shape m h p l t -> shape m h' p l t.
Proof.
  induction t as [d|f ts IH] using tree_ind'; intros p l Hagree.
  - simpl. intros [Hm Hl]. split; [done|]. by apply Hagree.
  - rewrite !shape_TElement. intros [Hm (e & He & Hf & Hch)].
    split; [done|]. exists e. split; [by apply Hagree|]. split; [done|].
    eapply Forall2_Forall_r; [exact IH| |exact Hch].
    intros c t Ht. apply Ht. intros x n Hx Hp. apply Hagree; [done|].
    intros _. apply Hp. by eexists.
Qed.

(** Two nodes with the same tree have the same structure. *)
Lemma shape_equivalent (h : heap) t :
  ∀ m1 m2 p1 p2 l1 l2,
    shape m1 h p1 l1 t -> shape m2 h p2 l2 t -> equivalent h l1 l2.
Proof.
  induction t as [d|f ts IH] using tree_ind'; intros m1 m2 p1 p2 l1 l2.
  - simpl. intros [_ H1] [_ H2]. by eapply equivalent_Text.
  - rewrite !shape_TElement.
    intros [_ (e1 & H1 & Hf1 & Hch1)] [_ (e2 & H2 & Hf2 & Hch2)].
    assert (skeleton e1 = skeleton e2) as Hs by congruence.
    eapply equivalent_HTMLElement; [exact H1|exact H2|..].
    + exact (f_equal Element.localName Hs).
    + exact (f_equal Element.id Hs).
    + exact (f_equal Element.classList Hs).
    + exact (f_equal Element.own Hs).
    + clear H1 H2 Hf1 Hf2 Hs.
      revert IH Hch2. generalize (Element.childNodes e2).
      induction Hch1 as [|c1 t cs1 ts Hc1 Hch1 IHch]; intros cs2 IH Hch2;
        inversion Hch2 as [|c2 t' cs2' ts' Hc2 Hch2']; subst; [constructor|].
      apply Forall_cons in IH as [Ht IH]. constructor.
      * by eapply Ht.
      * by apply IHch.
Qed.

(** Rewriting the fields of a parentless element, its children apart,
    rewrites the fields at the root of its tree and nothing else. *)
Lemma shape_update_root g m (h : heap) l f ts :
  (∀ e, Element.childNodes (g e) = Element.childNodes e) ->
  (∀ e, skeleton (g e) = g (skeleton e)) ->
  shape m h None l (TElement f ts) ->
  take m (update_element g l h) = take m h ∧
  shape m (update_element g l h) None l (TElement (g f) ts).
Proof.
  intros Hg1 Hg2. rewrite !shape_TElement. intros [Hm (e & He & Hf & Hch)].
  assert (l < length h) as Hlt by by eapply lookup_lt_Some.
  rewrite (update_element_at _ _ _ _ _ He). split.
  - rewrite take_insert. by rewrite decide_False by lia.
  - split; [done|]. exists (g e). split; [|split].
    + rewrite list_lookup_insert. by rewrite decide_True.
    + by rewrite Hg2, Hf.
    + rewrite Hg1. eapply Forall2_impl; [exact Hch|].
      intros c t. apply shape_agree. intros x n Hx Hp.
      rewrite list_lookup_insert_ne; [done|].
      intros <-. rewrite He in Hx. injection Hx as <-.
      by destruct (Hp ltac:(by eexists)).
Qed.

(** The tree of an element that has just been made. *)
Lemma shape_fresh (h : heap) e :
  Element.childNodes e = [] ->
  shape (length h) (h ++ [Node None (HTMLElement e)]) None (length h)
        (TElement e []).
Proof.
  intros Hc. rewrite shape_TElement. split; [done|]. exists e.
  split; [apply lookup_fresh|]. split.
  - destruct e. simpl in Hc. by subst.
  - rewrite Hc. constructor.
Qed.

(** ** Facts about the computations *)

Lemma bind_assoc {A B C} (m : M A) (k : A -> M B) (k' : B -> M C) h :
  (do y <- (do x <- m; k x); k' y) h = (do x <- m; do y <- k x; k' y) h.
Proof. unfold bind. by destruct (m h) as [h' [a|e]]. Qed.

Lemma forEach_app {A} (xs ys : list A) (f : A -> M unit) h :
  forEach (xs ++ ys) f h = (do_ forEach xs f; forEach ys f) h.
Proof.
  revert h. induction xs as [|x xs IH]; intros h; simpl; [done|].
  rewrite bind_assoc. unfold bind.
  destruct (f x h) as [h' [[]|e]]; [|done]. by rewrite IH.
Qed.

(** An entry whose action leaves every store as it is can be dropped
    from the list. *)
Lemma forEach_drop {A} (xs ys : list A) (x : A) (f : A -> M unit) :
  (∀ h, f x h = (h, Normal tt)) ->
  ∀ h, forEach (xs ++ x :: ys) f h = forEach (xs ++ ys) f h.
Proof.
  intros Hx h. rewrite !forEach_app. unfold bind.
  destruct (forEach xs f h) as [h' [[]|e]]; [|done].
  simpl. unfold bind. by rewrite Hx.
Qed.

Section Properties.

Context `{Host}.

Lemma id_step selector (h : heap) e :
  match selector_id selector with
  | Some i => if truthy i then set_id (length h) (VString i) else ret tt
  | None => ret tt
  end (h ++ [Node None (HTMLElement e)])
  = (h ++ [Node None (HTMLElement
              (with_id (default (Element.id e) (selector_id selector)) e))],
     Normal tt).
Proof.
  unfold selector_id.
  destruct (patterns.id selector) as [m|] eqn:Hm; simpl.
  - apply id_group_nonempty in Hm. unfold truthy.
    destruct (String.eqb_spec (group1 m) ""); [done|]. simpl.
    unfold set_id. cbn [DOMString]. by rewrite update_element_fresh.
  - by destruct e.
Qed.

Lemma class_step selector (h : heap) e :
  match map (slice 1) <$> patterns.class selector with
  | Some cs => classList_add (length h) cs
  | None => ret tt
  end (h ++ [Node None (HTMLElement e)])
  = (h ++ [Node None (HTMLElement
              (with_classList
                 (token_set_append (Element.classList e)
                                   (selector_classes selector)) e))],
     Normal tt).
Proof.
  pose proof (selector_classes_runs selector) as Hr.
  unfold selector_classes in *.
  destruct (patterns.class selector) as [cs|]; simpl in *.
  - unfold classList_add. rewrite (token_error_runs _ Hr).
    by rewrite update_element_fresh.
  - by destruct e.
Qed.

(** The builder up to the loop: it either refuses the tag, or hands a
    new element, already carrying the identifier and the classes of
    the selector, to the loop. *)
Lemma dollar_created selector rest h :
  valid_name (selector_tag selector) = true ->
  dollar selector rest h =
    (do_ forEach rest (each_prop (length h)); ret (length h))
      (h ++ [Node None (HTMLElement (fresh_element selector))]).
Proof.
  intros Hv. unfold dollar. fold (selector_tag selector) (selector_id selector).
  unfold bind at 1, createElement. rewrite Hv.
  unfold bind at 1. rewrite id_step.
  unfold bind at 1. rewrite class_step. reflexivity.
Qed.

Lemma dollar_refused selector rest h :
  valid_name (selector_tag selector) = false ->
  dollar selector rest h = (h, Throw (DOMException "InvalidCharacterError")).
Proof.
  intros Hv. unfold dollar. fold (selector_tag selector).
  unfold bind at 1, createElement. by rewrite Hv.
Qed.

(** The outcome of the whole call in terms of the loop. *)
Lemma dollar_Normal selector rest h h1 el :
  dollar selector rest h = (h1, Normal el) ->
  valid_name (selector_tag selector) = true ∧
  el = length h ∧
  forEach rest (each_prop el)
          (h ++ [Node None (HTMLElement (fresh_element selector))])
  = (h1, Normal tt).
Proof.
  destruct (valid_name (selector_tag selector)) eqn:Hv.
  - rewrite dollar_created by done. unfold bind, ret.
    destruct (forEach _ _ _) as [h' [[]|e]] eqn:E; [|done].
    by intros [= -> <-].
  - by rewrite dollar_refused.
Qed.

Lemma dollar_drop selector pre post v h :
  (∀ el h', each_prop el v h' = (h', Normal tt)) ->
  dollar selector (pre ++ v :: post) h = dollar selector (pre ++ post) h.
Proof.
  intros Hv. destruct (valid_name (selector_tag selector)) eqn:Ht.
  - rewrite !dollar_created by done. unfold bind.
    by rewrite forEach_drop.
  - by rewrite !dollar_refused.
Qed.

Lemma each_prop_primitive el v h :
  primitive v = true -> (∀ s, v ≠ VString s) ->
  each_prop el v h = (do_ Object_assign el v; ret tt) h ∧
  each_prop el v h = (h, Normal tt).
Proof.
  intros Hp Hs. destruct v; try done. by destruct (Hs s).
Qed.

(** *** The four actions of the loop body *)

Lemma each_prop_string el s (h : heap) p e :
  h !! el = Some (Node p (HTMLElement e)) ->
  (∀ fuel n, inclusive_ancestor fuel (h ++ [n]) (length h) el = false) ->
  each_prop el (VString s) h
  = (<[el := Node p (HTMLElement
                (with_childNodes (Element.childNodes e ++ [length h]) e))]> h
     ++ [Node (Some el) (Text s)],
     Normal tt).
Proof.
  intros Hel Hanc. unfold each_prop. simpl.
  unfold bind at 1, createTextNode. unfold bind at 1, appendChild.
  rewrite (lookup_app_l_Some _ _ _ _ Hel), lookup_fresh, Hanc. simpl.
  unfold ret. f_equal.
  assert (el < length h) as Hlt by by eapply lookup_lt_Some.
  unfold set_parent. rewrite alter_app_r_alt, Nat.sub_diag by lia. simpl.
  erewrite update_element_at
    by (rewrite lookup_app_l by done; exact Hel).
  by rewrite insert_app_l.
Qed.

Lemma inclusive_ancestor_ne fuel (h : heap) a x :
  inclusive_ancestor fuel h a x = false -> a ≠ x.
Proof.
  destruct fuel; simpl; intros [Hne _]%orb_false_elim;
    by apply Nat.eqb_neq.
Qed.

Lemma each_prop_element el c (h : heap) p e pc ec :
  h !! el = Some (Node p (HTMLElement e)) ->
  h !! c = Some (Node pc (HTMLElement ec)) ->
  inclusive_ancestor (length h) h c el = false ->
  ∃ h',
    each_prop el (VNode c) h = (h', Normal tt) ∧
    h' !! el
    = Some (Node p (HTMLElement
         (with_childNodes
            ((if decide (pc = Some el)
              then filter (fun x => x ≠ c) (Element.childNodes e)
              else Element.childNodes e) ++ [c]) e))) ∧
    parentNode <$> h' !! c = Some (Some el).
Proof.
  intros Hel Hc Hanc.
  pose proof (inclusive_ancestor_ne _ _ _ _ Hanc) as Hne.
  unfold each_prop. simpl. rewrite Hc.
  unfold bind, appendChild. rewrite Hel, Hc, Hanc. simpl.
  eexists. split; [reflexivity|]. split.
  - rewrite lookup_update_element, decide_True by done.
    rewrite lookup_set_parent, decide_False by done.
    destruct pc as [p0|]; [|by rewrite decide_False, Hel by done].
    rewrite lookup_update_element.
    destruct (decide (p0 = el)) as [->|Hp].
    + rewrite decide_True by done. by rewrite Hel.
    + rewrite decide_False by congruence. by rewrite Hel.
  - rewrite lookup_update_element, decide_False by done.
    rewrite lookup_set_parent, decide_True by done.
    destruct pc as [p0|]; [|by rewrite Hc].
    rewrite lookup_update_element. case_decide; by rewrite Hc.
Qed.

(** *** Writing properties *)

Lemma forEach_app_Normal {A} (xs ys : list A) (f : A -> M unit) (h h' : heap) :
  forEach (xs ++ ys) f h = (h', Normal tt) ->
  ∃ h1, forEach xs f h = (h1, Normal tt) ∧ forEach ys f h1 = (h', Normal tt).
Proof.
  rewrite forEach_app. unfold bind.
  destruct (forEach xs f h) as [h1 [[]|e]]; [|done]. by exists h1.
Qed.

Lemma each_prop_other el prop h :
  instanceof_HTMLElement h prop = None ->
  (∀ f, prop ≠ VFunction f) -> (∀ s, prop ≠ VString s) ->
  each_prop el prop h
  = forEach (own_enumerable h prop)
            (fun kv => element_set el (fst kv) (snd kv)) h.
Proof.
  intros Hi Hf Hs. unfold each_prop. rewrite Hi.
  assert ((do_ Object_assign el prop; ret tt) h
          = forEach (own_enumerable h prop)
                    (fun kv => element_set el (fst kv) (snd kv)) h) as Ha.
  { unfold Object_assign, bind, ret.
    by destruct (forEach _ _ h) as [h' [[]|e]]. }
  destruct prop; try exact Ha.
  - by destruct (Hs s).
  - by destruct (Hf f).
Qed.

Lemma set_id_persists el v (h h' : heap) r l e :
  set_id el v h = (h', r) ->
  element_at h l = Some e ->
  ∃ e', element_at h' l = Some e'.
Proof.
  unfold set_id. destruct (DOMString v) as [s|x]; intros [= <- _] He.
  - rewrite element_at_update_element, He. case_decide; by eexists.
  - by eexists.
Qed.

Lemma element_set_persists el k v (h h' : heap) r l e :
  element_set el k v h = (h', r) ->
  element_at h l = Some e ->
  ∃ e', element_at h' l = Some e' ∧ (k ≠ "id" -> Element.id e' = Element.id e).
Proof.
  unfold element_set. destruct (String.eqb_spec k "id") as [->|Hk].
  - intros Hset He. destruct (set_id_persists _ _ _ _ _ _ _ Hset He) as [e' He'].
    by exists e'.
  - intros Hput He.
    destruct (Put_persists _ _ _ _ _ _ _ _ Hk Hput He) as (e' & He' & Hid).
    by exists e'.
Qed.

Lemma own_get_None_cons k k' v ps :
  own_get k ((k', v) :: ps) = None -> own_get k ps = None ∧ k' ≠ k.
Proof.
  simpl. destruct (own_get k ps); [done|].
  by destruct (String.eqb_spec k' k).
Qed.

Lemma forEach_element_set_persists el entries :
  ∀ (h h' : heap) r l e,
    forEach entries (fun kv => element_set el (fst kv) (snd kv)) h = (h', r) ->
    element_at h l = Some e ->
    ∃ e', element_at h' l = Some e' ∧
          (own_get "id" entries = None -> Element.id e' = Element.id e).
Proof.
  induction entries as [|[k v] entries IH]; intros h h' r l e; simpl.
  - intros [= <- _] He. by exists e.
  - unfold bind.
    destruct (element_set el k v h) as [h1 [[]|x]] eqn:Hset; intros Hrun He;
      destruct (element_set_persists _ _ _ _ _ _ _ _ Hset He) as (e1 & He1 & Hid1).
    + destruct (IH _ _ _ _ _ Hrun He1) as (e' & He' & Hid').
      exists e'. split; [done|].
      intros [Hn Hk]%own_get_None_cons. by rewrite Hid', Hid1.
    + injection Hrun as <- _. exists e1. split; [done|].
      intros [Hn Hk]%own_get_None_cons. by apply Hid1.
Qed.

Lemma forEach_element_set_id el bag x :
  own_get "id" bag = Some (VString x) ->
  ∀ (h h' : heap) e,
    forEach bag (fun kv => element_set el (fst kv) (snd kv)) h = (h', Normal tt) ->
    element_at h el = Some e ->
    ∃ e', element_at h' el = Some e' ∧ Element.id e' = x.
Proof.
  induction bag as [|[k v] bag IH]; [done|].
  intros Hget h h' e. simpl. unfold bind.
  destruct (element_set el k v h) as [h1 [[]|y]] eqn:Hset; [|done].
  intros Hrun He. simpl in Hget.
  destruct (own_get "id" bag) as [v'|] eqn:Hbag.
  - destruct (element_set_persists _ _ _ _ _ _ _ _ Hset He) as (e1 & He1 & _).
    by apply (IH Hget h1 h' e1).
  - destruct (String.eqb_spec k "id") as [->|]; [|done].
    injection Hget as ->.
    unfold element_set in Hset. simpl in Hset. injection Hset as <-.
    destruct (forEach_element_set_persists _ _ _ _ _ el (with_id x e) Hrun)
      as (e' & He' & Hid).
    { by rewrite element_at_update_element, decide_True, He. }
    exists e'. split; [done|]. by rewrite Hid.
Qed.

Lemma appendChild_persists parent child (h h' : heap) r l e :
  appendChild parent child h = (h', r) ->
  element_at h l = Some e ->
  ∃ e', element_at h' l = Some e' ∧ Element.id e' = Element.id e.
Proof.
  intros Ha He.
  pose proof (appendChild_skeleton _ _ _ _ _ l Ha) as Hs.
  rewrite He in Hs. destruct (element_at h' l) as [e'|]; [|done].
  exists e'. split; [done|].
  apply (f_equal (fmap Element.id)) in Hs. simpl in Hs. by injection Hs.
Qed.

Lemma own_enumerable_no_id (h : heap) prop :
  instanceof_HTMLElement h prop = None ->
  (∀ s, prop ≠ VString s) ->
  writes_id prop = false ->
  own_get "id" (own_enumerable h prop) = None.
Proof.
  destruct prop as [| | | | | |s|f|l|own]; simpl; try done.
  - intros _ Hs. by destruct (Hs s).
  - by destruct (h !! l) as [[p [e|d]]|].
  - by destruct (own_get "id" own).
Qed.

(** No step of the loop makes an element vanish, and a step that is no
    function and no bag with an [id] key leaves every identifier. *)
Lemma each_prop_persists el prop (h h' : heap) r l e :
  each_prop el prop h = (h', r) ->
  element_at h l = Some e ->
  ∃ e', element_at h' l = Some e' ∧
        (writes_id prop = false -> Element.id e' = Element.id e).
Proof.
  intros Hstep He.
  destruct (instanceof_HTMLElement h prop) as [c|] eqn:Hi.
  - unfold each_prop in Hstep. rewrite Hi in Hstep. unfold bind in Hstep.
    destruct (appendChild el c h) as [h1 [x|y]] eqn:Ha;
      injection Hstep as <- _;
      destruct (appendChild_persists _ _ _ _ _ _ _ Ha He) as (e' & He' & Hid);
      by exists e'.
  - destruct (string_or_not prop) as [[s ->]|Hs];
      [|destruct (function_or_not prop) as [[f ->]|Hf]].
    + unfold each_prop in Hstep. simpl in Hstep.
      unfold bind at 1, createTextNode in Hstep. unfold bind in Hstep.
      destruct (appendChild el (length h) _) as [h1 [x|y]] eqn:Ha;
        injection Hstep as <- _;
        (destruct (appendChild_persists _ _ _ _ _ l e Ha) as (e' & He' & Hid);
         [by rewrite element_at_app_text|by exists e']).
    + unfold each_prop in Hstep. simpl in Hstep. unfold bind in Hstep.
      destruct (Call f [VNode el] h) as [h1 [x|y]] eqn:Hc;
        injection Hstep as <- _;
        (destruct (Call_persists _ _ _ _ _ l Hc) as [e' He'];
         [by eexists|by exists e']).
    + rewrite each_prop_other in Hstep by done.
      destruct (forEach_element_set_persists _ _ _ _ _ _ _ Hstep He)
        as (e' & He' & Hid).
      exists e'. split; [done|]. intros Hw. apply Hid.
      by apply own_enumerable_no_id.
Qed.

Lemma forEach_persists el rest :
  ∀ (h h' : heap) r l e,
    forEach rest (each_prop el) h = (h', r) ->
    element_at h l = Some e ->
    ∃ e', element_at h' l = Some e' ∧
          (Forall (fun v => writes_id v = false) rest ->
           Element.id e' = Element.id e).
Proof.
  induction rest as [|v rest IH]; intros h h' r l e; simpl.
  - intros [= <- _] He. by exists e.
  - unfold bind.
    destruct (each_prop el v h) as [h1 [[]|x]] eqn:Hstep; intros Hrun He;
      destruct (each_prop_persists _ _ _ _ _ _ _ Hstep He) as (e1 & He1 & Hid1).
    + destruct (IH _ _ _ _ _ Hrun He1) as (e' & He' & Hid').
      exists e'. split; [done|].
      intros [Hv Hrest]%Forall_cons. by rewrite Hid', Hid1.
    + injection Hrun as <- _. exists e1. split; [done|].
      intros [Hv Hrest]%Forall_cons. by apply Hid1.
Qed.

(** C1, as amended: for a selector [tag#id.c1.c2] made of four runs,
    the builder hands [c1; c2], in that order, to the class list, and
    returns a new element whose local name is [tag] in lower case (its
    [tagName] reads [tag] in upper case), whose identifier is [id] and
    whose classes are exactly [c1] and [c2], [c1] first. *)
Theorem tag_id_two_classes tag id c1 c2 h :
  run tag -> run id -> run c1 -> run c2 ->
  valid_name tag = true ->
  let selector := tag +:+ "#" +:+ id +:+ "." +:+ c1 +:+ "." +:+ c2 in
  selector_classes selector = [c1; c2] ∧
  ∃ e,
    dollar selector [] h = (h ++ [Node None (HTMLElement e)], Normal (length h)) ∧
    Element.localName e = lower tag ∧
    Element.tagName e = upper tag ∧
    Element.id e = id ∧
    (∀ c, c ∈ Element.classList e <-> c = c1 ∨ c = c2) ∧
    Element.classList e = if decide (c1 = c2) then [c1] else [c1; c2].
Proof.
  intros Htag Hid Hc1 Hc2 Hv selector.
  assert (selector
          = tag +:+ String "#" (id +:+ String "." (c1 +:+ String "." c2)))
    as Es by reflexivity.
  assert (selector_tag selector = tag) as Et.
  { unfold selector_tag. rewrite Es. by rewrite tag_of_run. }
  assert (selector_id selector = Some id) as Ei.
  { unfold selector_id. rewrite Es.
    rewrite id_skip_run by apply Htag. by rewrite id_at_hash. }
  assert (selector_classes selector = [c1; c2]) as Ec.
  { unfold selector_classes, patterns.class. rewrite Es.
    rewrite class_from_over_run by apply Htag.
    change (patterns.class_from 0 (String "#" ?s))
      with (patterns.class_from 0 s).
    rewrite class_from_over_run by apply Hid.
    rewrite (class_from_at_dot c1 (String "." c2) Hc1 eq_refl).
    rewrite <- (append_empty_r c2) at 1.
    rewrite (class_from_at_dot c2 "" Hc2 eq_refl).
    reflexivity. }
  split; [exact Ec|].
  eexists. split.
  { rewrite dollar_created by (by rewrite Et). reflexivity. }
  unfold fresh_element. rewrite Et, Ei, Ec.
  unfold Element.tagName. cbn [Element.localName Element.id Element.classList].
  split; [done|]. split; [apply upper_lower|]. split; [done|]. simpl.
  case_bool_decide as Hin; case_decide as Heq; simpl.
  - subst c2. split; [|done]. intros c. rewrite list_elem_of_singleton. tauto.
  - apply list_elem_of_singleton in Hin. congruence.
  - subst c2. exfalso. apply Hin. by apply list_elem_of_singleton.
  - split; [|done]. intros c. rewrite !elem_of_cons, elem_of_nil. tauto.
Qed.

(** C4: when the leading run of the selector is empty the element is a
    [div] (its tag name reads [DIV]); when in addition the selector contains neither [#] nor [.]
    (the empty selector among them) the result is a new [div] with no
    identifier, no class, no child and no property. *)
Theorem no_marker_div selector h :
  valid_name "div" = true ->
  word_run selector = "" ->
  (∃ e,
      dollar selector [] h
      = (h ++ [Node None (HTMLElement e)], Normal (length h)) ∧
      Element.localName e = "div" ∧ Element.tagName e = "DIV") ∧
  (occurs "#" selector = false -> occurs "." selector = false ->
   dollar selector [] h
   = (h ++ [Node None (HTMLElement (Element.mk "div" "" [] [] []))],
      Normal (length h))).
Proof.
  intros Hv Hrun.
  assert (selector_tag selector = "div") as Et.
  { unfold selector_tag. by rewrite tag_none. }
  split.
  - eexists. split.
    + rewrite dollar_created by (by rewrite Et). reflexivity.
    + unfold Element.tagName. simpl. by rewrite Et.
  - intros Hh Hd. rewrite dollar_created by (by rewrite Et).
    unfold fresh_element, selector_id, selector_classes, patterns.class.
    rewrite Et, (id_none_without_hash _ Hh),
      (class_from_none_without_dot _ _ Hd).
    reflexivity.
Qed.

(** C7: when the factory refuses the tag extracted from the selector,
    the call ends with the factory's error and the node store is the
    one the call started from, whatever the trailing arguments are. *)
Theorem invalid_tag_no_mutation selector rest h :
  valid_name (selector_tag selector) = false ->
  dollar selector rest h = (h, Throw (DOMException "InvalidCharacterError")).
Proof. apply dollar_refused. Qed.

(** C8: in [div#a#b] the identifier pattern matches [#a] only, the
    class pattern matches nothing, and the call returns a new [div]
    with identifier [a] and no class; nothing is raised for [#b]. *)
Theorem second_hash_dropped h :
  valid_name "div" = true ->
  patterns.id "div#a#b" = Some (MatchArray "#a" "a") ∧
  patterns.class "div#a#b" = None ∧
  dollar "div#a#b" [] h
  = (h ++ [Node None (HTMLElement (Element.mk "div" "a" [] [] []))],
     Normal (length h)).
Proof.
  intros Hv. split; [reflexivity|]. split; [reflexivity|].
  by rewrite dollar_created.
Qed.

(** C3: [false], [null] and [undefined] as a trailing argument change
    nothing and raise nothing; the call yields the same store and the
    same result as the call without that argument. *)
Theorem falsy_argument_noop selector pre post v h :
  v = VBoolean false ∨ v = VNull ∨ v = VUndefined ->
  (∀ el h', each_prop el v h' = (h', Normal tt)) ∧
  dollar selector (pre ++ v :: post) h = dollar selector (pre ++ post) h.
Proof.
  intros Hv.
  assert (∀ el h', each_prop el v h' = (h', Normal tt)) as Hnoop.
  { intros el h'. by destruct Hv as [->|[->| ->]]. }
  split; [exact Hnoop|]. by apply dollar_drop.
Qed.

(** C10: a primitive that is not a string ([true], a number, ...) is
    handled by the last branch of the loop body, where the assignment
    finds no property to copy: nothing changes, nothing is raised, and
    the call equals the call without that argument. *)
Theorem primitive_argument_noop selector pre post v h :
  primitive v = true -> (∀ s, v ≠ VString s) ->
  (∀ el h', each_prop el v h' = (do_ Object_assign el v; ret tt) h' ∧
            each_prop el v h' = (h', Normal tt)) ∧
  dollar selector (pre ++ v :: post) h = dollar selector (pre ++ post) h.
Proof.
  intros Hp Hs. split.
  - intros el h'. by apply each_prop_primitive.
  - apply dollar_drop. intros el h'. by apply each_prop_primitive.
Qed.

(** C6: if the call with the arguments before position N alone ends
    normally in store [h1], and the callable at position N, applied to
    the new element in [h1], throws [e] leaving store [h2], then the
    whole call throws that same [e] and ends in [h2], whatever follows
    position N: nothing is undone and nothing further is run. *)
Theorem callable_throw_aborts selector pre f post h h1 h2 el e :
  dollar selector pre h = (h1, Normal el) ->
  Call f [VNode el] h1 = (h2, Throw e) ->
  dollar selector (pre ++ VFunction f :: post) h = (h2, Throw e).
Proof.
  intros (Hv & -> & Hpre)%dollar_Normal Hcall.
  rewrite dollar_created by done.
  unfold bind at 1. rewrite forEach_app. unfold bind at 1. rewrite Hpre.
  simpl. unfold bind at 1, each_prop. simpl. unfold bind at 1.
  by rewrite Hcall.
Qed.

(** C2: the trailing arguments are taken from left to right, one action
    each.  When the arguments before [prop] have left the store [h] and
    the new element [el], the call goes on with the action for [prop]
    and then with the arguments after it.  That action depends on the
    shape of [prop]: an element [c] (not [el] or above it) ends up as
    the last child of [el]; a function is applied to [el] alone and its
    value dropped; a string becomes the data of a new text node, the
    last child of [el]; a bag has its entries written onto [el] one
    after the other, each through the element's property write, the
    first entry that raises ending the call; and anything else is
    written in the same way from the own enumerable properties it
    has. *)
Theorem arguments_left_to_right selector pre post h0 (h : heap) el p e :
  dollar selector pre h0 = (h, Normal el) ->
  h !! el = Some (Node p (HTMLElement e)) ->
  parents_in_bounds h ->
  (∀ prop,
      dollar selector (pre ++ prop :: post) h0
      = (do_ each_prop el prop; do_ forEach post (each_prop el); ret el) h) ∧
  (∀ c pc ec,
      h !! c = Some (Node pc (HTMLElement ec)) ->
      inclusive_ancestor (length h) h c el = false ->
      ∃ h',
        each_prop el (VNode c) h = (h', Normal tt) ∧
        h' !! el
        = Some (Node p (HTMLElement
             (with_childNodes
                ((if decide (pc = Some el)
                  then filter (fun x => x ≠ c) (Element.childNodes e)
                  else Element.childNodes e) ++ [c]) e))) ∧
        parentNode <$> h' !! c = Some (Some el)) ∧
  (∀ f,
      each_prop el (VFunction f) h
      = (do_ Call f [VNode el]; ret tt) h) ∧
  (∀ s,
      each_prop el (VString s) h
      = (<[el := Node p (HTMLElement
                   (with_childNodes (Element.childNodes e ++ [length h]) e))]> h
         ++ [Node (Some el) (Text s)],
         Normal tt)) ∧
  (each_prop el (VObject []) h = (h, Normal tt) ∧
   ∀ k v bag,
     each_prop el (VObject ((k, v) :: bag)) h
     = (do_ (if String.eqb k "id" then set_id el v else Put el k v);
        each_prop el (VObject bag)) h) ∧
  (∀ prop,
      instanceof_HTMLElement h prop = None ->
      (∀ f, prop ≠ VFunction f) -> (∀ s, prop ≠ VString s) ->
      each_prop el prop h
      = forEach (own_enumerable h prop)
                (fun kv => element_set el (fst kv) (snd kv)) h).
Proof.
  intros (Hv & Eel & Hpre)%dollar_Normal Hel Hb.
  split; [|split; [|split; [|split; [|split]]]].
  - intros prop. rewrite dollar_created by done. rewrite <- Eel.
    unfold bind at 1. rewrite forEach_app. unfold bind at 1. rewrite Hpre.
    simpl. by rewrite <- bind_assoc.
  - intros c pc ec. by apply each_prop_element.
  - intros f. reflexivity.
  - intros s. apply each_prop_string; [done|].
    intros fuel n. apply inclusive_ancestor_new; [done|].
    by eapply lookup_lt_Some.
  - split; [reflexivity|]. intros k v bag.
    rewrite each_prop_other by done. simpl. unfold bind.
    fold (element_set el k v).
    destruct (element_set el k v h) as [h1 [[]|x]]; [|done].
    by rewrite each_prop_other.
  - intros prop. apply each_prop_other.
Qed.

(** C5, as amended: with an identifier in the selector and a bag whose
    [id] key holds the string [x] among the trailing arguments, the
    returned element has identifier [x], provided no argument after
    that bag writes the identifier again (no function and no bag with
    an [id] key follows).  That the returned location holds an element
    is certain as soon as callables leave elements in place. *)
Theorem last_bag_id_wins selector pre bag post x h h' el :
  is_Some (selector_id selector) ->
  own_get "id" bag = Some (VString x) ->
  Forall (fun v => writes_id v = false) post ->
  dollar selector (pre ++ VObject bag :: post) h = (h', Normal el) ->
  (∀ e, element_at h' el = Some e -> Element.id e = x) ∧
  (Call_keeps_elements -> Element.id <$> element_at h' el = Some x).
Proof.
  intros _ Hx Hpost (_ & -> & Hrun)%dollar_Normal.
  apply forEach_app_Normal in Hrun as (h1 & Hpre & Hrun).
  simpl in Hrun. unfold bind in Hrun.
  destruct (each_prop (length h) (VObject bag) h1) as [h2 [[]|y]] eqn:Hbag;
    [|done].
  rewrite each_prop_other in Hbag by done. simpl in Hbag.
  destruct (forEach_persists _ _ _ _ _ (length h) (fresh_element selector) Hpre)
    as (e1 & He1 & _).
  { unfold element_at. by rewrite lookup_fresh. }
  destruct (forEach_element_set_id _ _ _ Hx _ _ _ Hbag He1) as (e2 & He2 & Hid2).
  destruct (forEach_persists _ _ _ _ _ _ _ Hrun He2) as (e3 & He3 & Hid3).
  specialize (Hid3 Hpost). rewrite He3. split.
  - intros e [= <-]. congruence.
  - intros _. simpl. congruence.
Qed.

(** *** Operations on the new element *)

Lemma acts_as_ret : acts_as (fun _ => ret tt) (fun f ts => Normal (f, ts)).
Proof. intros m h l f ts Hs. by exists h. Qed.

Lemma acts_as_update g :
  (∀ e, Element.childNodes (g e) = Element.childNodes e) ->
  (∀ e, skeleton (g e) = g (skeleton e)) ->
  acts_as (fun l h => (update_element g l h, Normal tt))
          (fun f ts => Normal (g f, ts)).
Proof.
  intros Hg1 Hg2 m h l f ts Hs. eexists. split; [done|].
  by apply shape_update_root.
Qed.

Lemma acts_as_set_id v :
  acts_as (fun l => set_id l v)
          (fun f ts =>
             match DOMString v with
             | Normal s => Normal (with_id s f, ts)
             | Throw x => Throw x
             end).
Proof.
  intros m h l f ts Hs. unfold set_id. destruct (DOMString v) as [s|x].
  - eexists. split; [done|]. by apply shape_update_root.
  - by eexists.
Qed.

Lemma acts_as_text s :
  acts_as (fun l => each_prop l (VString s))
          (fun f ts => Normal (f, ts ++ [TText s])).
Proof.
  intros m h l f ts Hs.
  pose proof Hs as [Hm (e & He & Hf & Hch)]%shape_TElement.
  assert (l < length h) as Hlt by by eapply lookup_lt_Some.
  eexists. split; [|split].
  - apply (each_prop_string _ _ _ _ _ He). intros fuel n.
    eapply inclusive_ancestor_root; [|lia].
    rewrite lookup_app_l by done. exact He.
  - rewrite take_app_le by (rewrite length_insert; lia).
    rewrite take_insert. by rewrite decide_False by lia.
  - rewrite shape_TElement. split; [done|]. eexists. split; [|split].
    + rewrite lookup_app_l by (rewrite length_insert; lia).
      rewrite list_lookup_insert. by rewrite decide_True.
    + exact Hf.
    + simpl. apply Forall2_app.
      * eapply Forall2_impl; [exact Hch|].
        intros c t. apply shape_agree. intros x n Hx Hp.
        rewrite lookup_app_l
          by (rewrite length_insert; by eapply lookup_lt_Some).
        rewrite list_lookup_insert_ne; [done|].
        intros <-. rewrite He in Hx. injection Hx as <-.
        by destruct (Hp ltac:(by eexists)).
      * constructor; [|constructor]. simpl. split; [lia|].
        rewrite lookup_app_r by (rewrite length_insert; lia).
        by rewrite length_insert, Nat.sub_diag.
Qed.

Lemma acts_as_seq op1 op2 g1 g2 :
  acts_as op1 g1 -> acts_as op2 g2 ->
  acts_as (fun l => do_ op1 l; op2 l)
          (fun f ts =>
             match g1 f ts with
             | Normal (f', ts') => g2 f' ts'
             | Throw x => Throw x
             end).
Proof.
  intros H1 H2 m h l f ts Hs. specialize (H1 m h l f ts Hs). unfold bind.
  destruct (g1 f ts) as [[f1 ts1]|x].
  - destruct H1 as (h1 & -> & Ht1 & Hs1). specialize (H2 m h1 l f1 ts1 Hs1).
    destruct (g2 f1 ts1) as [[f2 ts2]|x].
    + destruct H2 as (h2 & -> & Ht2 & Hs2). exists h2.
      split; [done|]. split; [congruence|done].
    + destruct H2 as (h2 & ->). by exists h2.
  - destruct H1 as (h1 & ->). by exists h1.
Qed.

Lemma tree_function_seq op1 op2 :
  tree_function op1 -> tree_function op2 ->
  tree_function (fun l => do_ op1 l; op2 l).
Proof. intros [g1 H1] [g2 H2]. eexists. by apply acts_as_seq. Qed.

Lemma tree_function_ext op op' :
  (∀ l h, op l h = op' l h) -> tree_function op -> tree_function op'.
Proof.
  intros Hext [g Hg]. exists g. intros m h l f ts Hs.
  specialize (Hg m h l f ts Hs). rewrite <- Hext.
  by destruct (g f ts) as [[f' ts']|x].
Qed.

(** What is determined by the tree has no effect outside it. *)
Lemma tree_function_quiet op : tree_function op -> no_outside_effect op.
Proof.
  intros [g Hg] m h h' l f ts Hs Hop. specialize (Hg m h l f ts Hs).
  destruct (g f ts) as [[f' ts']|x].
  - destruct Hg as (h'' & Hop' & Ht & Hs'). rewrite Hop in Hop'.
    injection Hop' as <-. eauto.
  - destruct Hg as (h'' & Hop'). congruence.
Qed.

Lemma no_outside_effect_seq op1 op2 :
  no_outside_effect op1 -> no_outside_effect op2 ->
  no_outside_effect (fun l => do_ op1 l; op2 l).
Proof.
  intros H1 H2 m h h' l f ts Hs. unfold bind.
  destruct (op1 l h) as [h1 [[]|x]] eqn:E1; [|done]. intros E2.
  destruct (H1 _ _ _ _ _ _ Hs E1) as (Ht1 & f1 & ts1 & Hs1).
  destruct (H2 _ _ _ _ _ _ Hs1 E2) as (Ht2 & f2 & ts2 & Hs2).
  split; [congruence|eauto].
Qed.

Lemma no_outside_effect_ext op op' :
  (∀ l h, op l h = op' l h) -> no_outside_effect op -> no_outside_effect op'.
Proof.
  intros Hext Hop m h h' l f ts Hs. rewrite <- Hext. by eapply Hop.
Qed.

(** The loop over the trailing arguments is made of the operations of
    the arguments: what holds of each of them, of the steps the builder
    adds and of a sequence of two holds of the loop. *)
Section Closure.

Variable C : (loc -> M unit) -> Prop.
Hypothesis C_tree_function : ∀ op, tree_function op -> C op.
Hypothesis C_seq : ∀ op1 op2, C op1 -> C op2 -> C (fun l => do_ op1 l; op2 l).
Hypothesis C_ext : ∀ op op', (∀ l h, op l h = op' l h) -> C op -> C op'.

Lemma closed_forEach {A} (xs : list A) (f : A -> loc -> M unit) :
  Forall (fun x => C (f x)) xs -> C (fun l => forEach xs (fun x => f x l)).
Proof.
  induction 1 as [|x xs Hx _ IH]; simpl.
  - apply C_tree_function. eexists. apply acts_as_ret.
  - exact (C_seq (f x) (fun l => forEach xs (fun x => f x l)) Hx IH).
Qed.

Lemma closed_each_prop v : argument_ops C v -> C (fun l => each_prop l v).
Proof.
  assert (C (fun _ => ret tt)) as Hret.
  { apply C_tree_function. eexists. apply acts_as_ret. }
  destruct v as [| |b|n|n|d|s|f|l|bag]; simpl; intros Hv;
    try (by apply (C_ext (fun _ => ret tt))).
  - apply C_tree_function. eexists. apply acts_as_text.
  - by apply (C_ext (fun l => do_ Call f [VNode l]; ret tt)).
  - apply (C_ext (fun l => forEach bag (fun kv => element_set l (fst kv) (snd kv)))).
    { intros l h. by rewrite each_prop_other. }
    apply (closed_forEach bag (fun kv l => element_set l (fst kv) (snd kv))).
    eapply Forall_impl; [exact Hv|]. intros [k v] Hk. simpl in *.
    unfold element_set. destruct (String.eqb_spec k "id") as [->|Hne].
    + apply C_tree_function. eexists. apply acts_as_set_id.
    + by apply Hk.
Qed.

Lemma closed_loop rest :
  Forall (argument_ops C) rest -> C (fun l => forEach rest (each_prop l)).
Proof.
  intros Hrest. apply (closed_forEach rest (fun v l => each_prop l v)).
  eapply Forall_impl; [exact Hrest|]. apply closed_each_prop.
Qed.

End Closure.

Lemma loop_tree_function rest :
  Forall self_contained rest ->
  tree_function (fun l => forEach rest (each_prop l)).
Proof.
  apply closed_loop;
    [done|apply tree_function_seq|apply tree_function_ext].
Qed.

Lemma loop_quiet rest :
  Forall quiet rest ->
  no_outside_effect (fun l => forEach rest (each_prop l)).
Proof.
  apply closed_loop;
    [apply tree_function_quiet|apply no_outside_effect_seq
    |apply no_outside_effect_ext].
Qed.

(** C9, as amended: two calls with the same arguments, the second made
    where the first has returned, give two different elements of the
    same structure (same tag, identifier, classes and properties, and
    children of the same structure, pair by pair), when no argument is
    a node made before and every callable and every property write is
    determined by the tree at the element it is given: it has no effect
    outside that tree and does not depend on what is outside it.  The
    second call returns as soon as the first does. *)
Theorem same_arguments_twice selector rest (h h1 : heap) l1 :
  Forall self_contained rest ->
  dollar selector rest h = (h1, Normal l1) ->
  ∃ h2 l2,
    dollar selector rest h1 = (h2, Normal l2) ∧
    l1 ≠ l2 ∧
    equivalent h2 l1 l2.
Proof.
  intros Hrest (Hv & -> & Hrun)%dollar_Normal.
  destruct (loop_tree_function rest Hrest) as [g Hg].
  pose proof (Hg _ _ _ _ _ (shape_fresh h (fresh_element selector) eq_refl))
    as H1.
  pose proof (Hg _ _ _ _ _ (shape_fresh h1 (fresh_element selector) eq_refl))
    as H2.
  destruct (g (fresh_element selector) []) as [[f ts]|x].
  - destruct H1 as (h1' & Hrun1 & _ & Hs1). rewrite Hrun in Hrun1.
    injection Hrun1 as <-.
    destruct H2 as (h2 & Hrun2 & Ht2 & Hs2).
    rewrite take_app_length in Ht2.
    exists h2, (length h1). split; [|split].
    + rewrite dollar_created by done. unfold bind. by rewrite Hrun2.
    + apply shape_lookup in Hs1. lia.
    + eapply shape_equivalent; [|exact Hs2].
      eapply shape_agree; [|exact Hs1].
      intros x n Hx _. rewrite <- Ht2 in Hx.
      by apply lookup_take_Some in Hx as [Hx _].
  - destruct H1 as (h1' & Hrun1). congruence.
Qed.

End Properties.

(** ** The sample host at work *)

Lemma sample_Call_persists f args (h h' : heap) r l :
  sample_Call f args h = (h', r) ->
  is_Some (element_at h l) -> is_Some (element_at h' l).
Proof.
  unfold sample_Call. destruct f as [|[|[|[|f]]]].
  - by intros [= <- _].
  - destruct args as [|[] args]; try by intros [= <- _].
    intros [= <- _] [e He]. rewrite element_at_update_element.
    case_decide; rewrite He; by eexists.
  - destruct args as [|[] args]; try by intros [= <- _].
    unfold bind at 1, createTextNode. unfold bind, ret.
    destruct (appendChild _ _ _) as [h1 [x|y]] eqn:Ha; intros [= <- _] [e He];
      pose proof (appendChild_skeleton _ _ _ _ _ l Ha) as Hs;
      rewrite element_at_app_text, He in Hs;
      by destruct (element_at h1 l).
  - destruct args as [|[] args]; try by intros [= <- _].
    destruct (element_at h 0); [|by intros [= <- _]].
    destruct (Nat.eqb _ 0); [by intros [= <- _]|].
    intros [= <- _] [e He]. rewrite element_at_update_element.
    case_decide; rewrite He; by eexists.
  - by intros [= <- _].
Qed.

Lemma sample_Put_persists el k v (h h' : heap) r l e :
  k ≠ "id" ->
  sample_Put el k v h = (h', r) ->
  element_at h l = Some e ->
  ∃ e', element_at h' l = Some e' ∧ Element.id e' = Element.id e.
Proof.
  intros _. unfold sample_Put.
  destruct (String.eqb k "className").
  - destruct (match v with VString s => Normal s | _ => sample_ToString v end)
      as [s|x]; intros [= <- _] He.
    + rewrite element_at_update_element, He. case_decide; by eexists.
    + by exists e.
  - case_bool_decide.
    + intros [= <- _] He. by exists e.
    + intros [= <- _] He. rewrite element_at_update_element, He.
      case_decide; by eexists.
Qed.

Definition sample_host : Host :=
  {| valid_name := sample_valid_name;
     ToString := sample_ToString;
     Call := sample_Call;
     Put := sample_Put;
     Call_persists := sample_Call_persists;
     Put_persists := sample_Put_persists |}.

Lemma sample_Call_keeps_elements : @Call_keeps_elements sample_host.
Proof. intros f args h h' r l. apply sample_Call_persists. Qed.

(** Writing the [title] property is determined by the element, and so
    are callable 1, callable 2 and the bags of the sample host that
    hold a title and an identifier. *)
Lemma sample_title_write v :
  tree_function
    (fun l h =>
       (update_element
          (fun e => with_own (own_set "title" v (Element.own e)) e) l h,
        Normal tt)).
Proof.
  eexists.
  apply (acts_as_update
           (fun e => with_own (own_set "title" v (Element.own e)) e));
    by intros [].
Qed.

Lemma sample_callable_1_self_contained : @self_contained sample_host (VFunction 1).
Proof.
  eapply tree_function_ext; [|apply (sample_title_write (VString "t"))].
  by intros l h.
Qed.

Lemma sample_callable_2_self_contained : @self_contained sample_host (VFunction 2).
Proof.
  eapply tree_function_ext;
    [|eexists; apply (@acts_as_text sample_host "more")].
  intros l h. unfold each_prop. simpl.
  unfold bind at 1 3, createTextNode. unfold bind.
  by destruct (appendChild _ _ _) as [h1 [x|y]].
Qed.

Lemma sample_title_bag_self_contained v w :
  @self_contained sample_host (VObject [("title", v); ("id", w)]).
Proof.
  repeat constructor; simpl; [|done].
  intros _. eapply tree_function_ext; [|apply (sample_title_write v)].
  by intros l h.
Qed.

(** Callable 3 has no effect outside the element it is given. *)
Lemma sample_callable_3_quiet : @quiet sample_host (VFunction 3).
Proof.
  intros m h h' l f ts Hs Hop. unfold bind in Hop. simpl in Hop.
  destruct (element_at h 0); [|injection Hop as <-; eauto].
  destruct (Nat.eqb l 0); [injection Hop as <-; eauto|].
  injection Hop as <-.
  destruct (shape_update_root
              (fun e => with_own (own_set "title" (VString "again")
                                    (Element.own e)) e) m h l f ts)
    as [Ht Hs']; [by intros []..|done|].
  eauto.
Qed.

(** [$('p', 'a', 'b')]: two text nodes, in call order. *)
Example paragraph_two_texts :
  @dollar sample_host "p" [VString "a"; VString "b"] []
  = ([Node None (HTMLElement (Element.mk "p" "" [] [1; 2] []));
      Node (Some 0) (Text "a");
      Node (Some 0) (Text "b")],
     Normal 0).
Proof. reflexivity. Qed.

(** [$('ul', $('li', 'x'), $('li', 'y'))] *)
Example list_of_items :
  (do a <- @dollar sample_host "li" [VString "x"];
   do b <- @dollar sample_host "li" [VString "y"];
   @dollar sample_host "ul" [VNode a; VNode b]) []
  = ([Node (Some 4) (HTMLElement (Element.mk "li" "" [] [1] []));
      Node (Some 0) (Text "x");
      Node (Some 4) (HTMLElement (Element.mk "li" "" [] [3] []));
      Node (Some 2) (Text "y");
      Node None (HTMLElement (Element.mk "ul" "" [] [0; 2] []))],
     Normal 4).
Proof. reflexivity. Qed.

(** [$('input', {type: 'email', required: true})] *)
Example input_with_properties :
  @dollar sample_host "input"
    [VObject [("type", VString "email"); ("required", VBoolean true)]] []
  = ([Node None (HTMLElement
        (Element.mk "input" "" [] []
           [("type", VString "email"); ("required", VBoolean true)]))],
     Normal 0).
Proof. reflexivity. Qed.

(** [$('.c1.c2')] and [$('button[disabled]')] *)
Example classes_only :
  @dollar sample_host ".c1.c2" [] []
  = ([Node None (HTMLElement (Element.mk "div" "" ["c1"; "c2"] [] []))],
     Normal 0).
Proof. reflexivity. Qed.

Example bracket_ignored :
  @dollar sample_host "button[disabled]" [] []
  = ([Node None (HTMLElement (Element.mk "button" "" [] [] []))], Normal 0).
Proof. reflexivity. Qed.

(** An element given to a second call leaves its first parent. *)
Example child_moves :
  (do a <- @dollar sample_host "li" [];
   do_ @dollar sample_host "ul" [VNode a];
   @dollar sample_host "ol" [VNode a]) []
  = ([Node (Some 2) (HTMLElement (Element.mk "li" "" [] [] []));
      Node None (HTMLElement (Element.mk "ul" "" [] [] []));
      Node None (HTMLElement (Element.mk "ol" "" [] [0] []))],
     Normal 2).
Proof. reflexivity. Qed.

Lemma tag_id_two_classes_witness :
  run "input" ∧ run "email" ∧ run "form-control" ∧ run "validated" ∧
  sample_valid_name "input" = true ∧
  selector_classes "input#email.form-control.validated"
  = ["form-control"; "validated"] ∧
  ∃ e,
    @dollar sample_host "input#email.form-control.validated" [] []
    = ([Node None (HTMLElement e)], Normal 0) ∧
    Element.localName e = "input" ∧
    Element.tagName e = "INPUT" ∧
    Element.id e = "email" ∧
    (∀ c, c ∈ Element.classList e <-> c = "form-control" ∨ c = "validated") ∧
    Element.classList e = ["form-control"; "validated"].
Proof.
  repeat (split; [by split|]).
  apply (@tag_id_two_classes sample_host
           "input" "email" "form-control" "validated" []);
    by split.
Defined.

Lemma arguments_left_to_right_witness :
  let h := [Node None (HTMLElement (Element.mk "p" "" [] [] []))] in
  @dollar sample_host "p" [] [] = (h, Normal 0) ∧
  parents_in_bounds h ∧
  @dollar sample_host "p" ([] ++ VString "a" :: [VString "b"]) []
  = (do_ @each_prop sample_host 0 (VString "a");
     do_ forEach [VString "b"] (@each_prop sample_host 0);
     ret 0) h ∧
  @each_prop sample_host 0 (VString "a") h
  = ([Node None (HTMLElement (Element.mk "p" "" [] [1] []));
      Node (Some 0) (Text "a")],
     Normal tt) ∧
  @each_prop sample_host 0
    (VObject [("title", VString "t"); ("tagName", VString "x");
              ("lang", VString "en")]) h
  = ([Node None (HTMLElement
        (Element.mk "p" "" [] [] [("title", VString "t")]))],
     Throw TypeError).
Proof.
  intros h.
  assert (parents_in_bounds h) as Hb.
  { intros [|[|l]] p c; by intros [=]. }
  split; [reflexivity|]. split; [exact Hb|].
  destruct (@arguments_left_to_right sample_host "p" [] [VString "b"] [] h 0
              None (Element.mk "p" "" [] [] []) eq_refl eq_refl Hb)
    as (Hseq & _ & _ & Hstr & [_ Hbag] & _).
  split; [apply Hseq|]. split; [apply Hstr|].
  by rewrite Hbag.
Defined.

Lemma falsy_argument_noop_witness :
  @dollar sample_host "ul" ([VString "a"] ++ VNull :: [VString "b"]) []
  = @dollar sample_host "ul" ([VString "a"] ++ [VString "b"]) [].
Proof.
  apply (@falsy_argument_noop sample_host "ul" [VString "a"] [VString "b"] VNull []).
  right. by left.
Defined.

Lemma no_marker_div_witness :
  sample_valid_name "div" = true ∧ word_run "" = "" ∧
  occurs "#" "" = false ∧ occurs "." "" = false ∧
  @dollar sample_host "" [] []
  = ([Node None (HTMLElement (Element.mk "div" "" [] [] []))], Normal 0).
Proof.
  repeat (split; [reflexivity|]).
  by apply (@no_marker_div sample_host "" [] eq_refl eq_refl).
Defined.

Lemma last_bag_id_wins_witness :
  ∃ h',
    @dollar sample_host "div#y"
      ([VString "t"; VFunction 1] ++ VObject [("id", VString "x")]
         :: [VBoolean false; VObject [("title", VString "k")]]) []
    = (h', Normal 0) ∧
    Element.id <$> element_at h' 0 = Some "x".
Proof.
  eexists. split; [vm_compute; reflexivity|].
  apply (@last_bag_id_wins sample_host "div#y" [VString "t"; VFunction 1]
           [("id", VString "x")]
           [VBoolean false; VObject [("title", VString "k")]] "x" []).
  - by eexists.
  - reflexivity.
  - by repeat constructor.
  - vm_compute. reflexivity.
  - exact sample_Call_keeps_elements.
Defined.

Lemma callable_throw_aborts_witness :
  ∃ h1,
    @dollar sample_host "ol" [VString "a"] [] = (h1, Normal 0) ∧
    @dollar sample_host "ol" ([VString "a"] ++ VFunction 0 :: [VString "z"]) []
    = (h1, Throw (Thrown (VString "boom"))).
Proof.
  eexists. split; [vm_compute; reflexivity|].
  eapply (@callable_throw_aborts sample_host "ol" [VString "a"] 0 [VString "z"]
            []).
  - vm_compute. reflexivity.
  - reflexivity.
Defined.

Lemma invalid_tag_no_mutation_witness :
  sample_valid_name (selector_tag "1x") = false ∧
  @dollar sample_host "1x" [VString "a"] []
  = ([], Throw (DOMException "InvalidCharacterError")).
Proof.
  split; [reflexivity|].
  by apply (@invalid_tag_no_mutation sample_host "1x" [VString "a"] []).
Defined.

Lemma second_hash_dropped_witness :
  sample_valid_name "div" = true ∧
  @dollar sample_host "div#a#b" [] []
  = ([Node None (HTMLElement (Element.mk "div" "a" [] [] []))], Normal 0).
Proof.
  split; [reflexivity|].
  by apply (@second_hash_dropped sample_host [] eq_refl).
Defined.

Lemma same_arguments_twice_witness :
  let rest :=
    [VString "a"; VObject [("title", VString "t"); ("id", VString "i")];
     VFunction 1; VFunction 2; VNull] in
  ∃ h1,
    @dollar sample_host "p.note" rest [] = (h1, Normal 0) ∧
    ∃ h2 l2,
      @dollar sample_host "p.note" rest h1 = (h2, Normal l2) ∧
      0 ≠ l2 ∧
      equivalent h2 0 l2.
Proof.
  intros rest. eexists. split; [vm_compute; reflexivity|].
  apply (@same_arguments_twice sample_host "p.note" rest []).
  - apply Forall_cons_2; [exact I|].
    apply Forall_cons_2; [apply sample_title_bag_self_contained|].
    apply Forall_cons_2; [apply sample_callable_1_self_contained|].
    apply Forall_cons_2; [apply sample_callable_2_self_contained|].
    apply Forall_cons_2; [exact I|]. apply Forall_nil_2.
  - vm_compute. reflexivity.
Defined.

Lemma primitive_argument_noop_witness :
  @dollar sample_host "ul" ([VString "a"] ++ VNumber 5 :: [VString "b"]) []
  = @dollar sample_host "ul" ([VString "a"] ++ [VString "b"]) [].
Proof.
  by apply (@primitive_argument_noop sample_host "ul" [VString "a"] [VString "b"]
              (VNumber 5) []).
Defined.

(** C5 as stated fails: a second bag after the first one takes the
    identifier over. *)
Lemma later_bag_overrides :
  let selector := "div#y" in
  let rest := [VObject [("id", VString "x")]; VObject [("id", VString "z")]] in
  selector_id selector = Some "y" ∧
  own_get "id" [("id", VString "x")] = Some (VString "x") ∧
  ∃ e,
    @dollar sample_host selector rest []
    = ([Node None (HTMLElement e)], Normal 0) ∧
    Element.id e = "z" ∧ Element.id e ≠ "x".
Proof.
  split; [reflexivity|]. split; [reflexivity|].
  eexists. split; [vm_compute; reflexivity|]. split; [reflexivity|discriminate].
Qed.

(** C1 as stated fails on a tag written with an upper-case letter: the
    element made for [Div#a.b.c] has the local name [div], and its tag
    name reads [DIV]. *)
Lemma tag_case_not_kept :
  run "Div" ∧ run "a" ∧ run "b" ∧ run "c" ∧
  sample_valid_name "Div" = true ∧
  ∃ e,
    @dollar sample_host "Div#a.b.c" [] []
    = ([Node None (HTMLElement e)], Normal 0) ∧
    Element.localName e = "div" ∧ Element.tagName e = "DIV" ∧
    Element.localName e ≠ "Div" ∧ Element.tagName e ≠ "Div".
Proof.
  repeat (split; [by split|]).
  eexists. split; [vm_compute; reflexivity|].
  by repeat split.
Qed.

(** C9 as stated fails: callable 3 changes nothing but the element it
    is given, and no node is among the arguments, yet the second of two
    calls with the same arguments finds the element of the first in the
    store, and its element gets a title the first has not. *)
Lemma reading_callable_differs :
  @quiet sample_host (VFunction 3) ∧
  ∃ h1 h2,
    @dollar sample_host "p" [VFunction 3] [] = (h1, Normal 0) ∧
    @dollar sample_host "p" [VFunction 3] h1 = (h2, Normal 1) ∧
    ¬ equivalent h2 0 1.
Proof.
  split; [exact sample_callable_3_quiet|].
  eexists. eexists. split; [vm_compute; reflexivity|].
  split; [vm_compute; reflexivity|].
  intros Heq.
  inversion Heq
    as [l1 l2 p1 p2 d H0 H1|l1 l2 p1 p2 e0 e1 H0 H1 Hn Hi Hc Hown Hch];
    simpl in H0, H1; [done|].
  injection H0 as _ <-. injection H1 as _ <-. done.
Qed.

(** * Beyond the claims *)

(** ** The static side: [ExtractTagName] and [ElementFromSelector]

    The two conditional types of the source, read as functions of a
    string literal type. *)

(** An inference [S extends `${infer Tag}d${string}`]: [Tag] is what
    stands before the first [d] of [S]; the test fails when [S] has no
    [d]. *)
Fixpoint infer_before (d : ascii) (s : string) : option string :=
  match s with
  | EmptyString => None
  | String c s' =>
      if Ascii.eqb c d then Some ""
      else String c <$> infer_before d s'
  end.

(** [ExtractTagName<S>] *)
Definition ExtractTagName (S : string) : string :=
  match infer_before "#" S with
  | Some Tag => Tag
  | None =>
      match infer_before "." S with
      | Some Tag => Tag
      | None =>
          match infer_before "[" S with
          | Some Tag => Tag
          | None => S
          end
      end
  end.

(** [ElementFromSelector<S>], over a table of element types keyed by tag
    name. *)
Definition ElementFromSelector {T : Type}
    (HTMLElementTagNameMap : string -> option T) (HTMLDivElement : T)
    (S : string) : T :=
  match HTMLElementTagNameMap (ExtractTagName S) with
  | Some t => t
  | None => HTMLDivElement
  end.

(** ** More vocabulary *)

(** The selector text of a list of classes: [.c1.c2...]. *)
Fixpoint dotted (cs : list string) : string :=
  match cs with
  | [] => ""
  | c :: cs' => String "." (c +:+ dotted cs')
  end.

(** The first of two optional results. *)
Definition first_of {A} (a b : option A) : option A :=
  match a with
  | Some x => Some x
  | None => b
  end.

(** ** The scans are local *)

Lemma append_assoc (a b c : string) : (a +:+ b) +:+ c = a +:+ b +:+ c.
Proof.
  induction a as [|x a IH]; [done|]. by rewrite !append_cons, IH.
Qed.

Lemma word_run_boundary s1 s2 :
  word_run s2 = "" -> word_run (s1 +:+ s2) = word_run s1.
Proof.
  intros Hs. induction s1 as [|c s1 IH]; [done|].
  rewrite append_cons. simpl. by rewrite IH.
Qed.

Lemma length_word_run s : String.length (word_run s) <= String.length s.
Proof.
  induction s as [|c s IH]; simpl; [lia|].
  destruct (word_char c); simpl; lia.
Qed.

Lemma class_from_boundary s1 s2 k :
  word_run s2 = "" -> k <= String.length s1 ->
  patterns.class_from k (s1 +:+ s2)
  = patterns.class_from k s1 ++ patterns.class_from 0 s2.
Proof.
  intros Hs. revert k. induction s1 as [|c s1 IH]; intros k Hk.
  - simpl in Hk. by replace k with 0 by lia.
  - rewrite append_cons. simpl. destruct k as [|k].
    + destruct (Ascii.eqb c "."); [|apply IH; lia].
      rewrite (word_run_boundary _ _ Hs).
      pose proof (length_word_run s1) as Hl.
      destruct (word_run s1) as [|a r]; [apply IH; lia|].
      simpl. f_equal. apply IH. exact Hl.
    + apply IH. simpl in Hk. lia.
Qed.

Lemma selector_classes_class_from s :
  selector_classes s = map (slice 1) (patterns.class_from 0 s).
Proof.
  unfold selector_classes, patterns.class.
  by destruct (patterns.class_from 0 s).
Qed.

Lemma id_boundary s1 s2 :
  word_run s2 = "" ->
  patterns.id (s1 +:+ s2) = first_of (patterns.id s1) (patterns.id s2).
Proof.
  intros Hs. induction s1 as [|c s1 IH]; [done|].
  rewrite append_cons. simpl.
  destruct (Ascii.eqb c "#"); [|exact IH].
  rewrite (word_run_boundary _ _ Hs).
  by destruct (word_run s1).
Qed.

(** X1: cutting a selector in front of a character outside the class
    (or at its end) cuts the three scans: the tag is that of the first
    part, the identifier is the first one either part has, the classes
    are those of the first part followed by those of the second. *)
Theorem scans_are_local s1 s2 :
  word_run s2 = "" ->
  patterns.tag (s1 +:+ s2) = patterns.tag s1 ∧
  selector_id (s1 +:+ s2) = first_of (selector_id s1) (selector_id s2) ∧
  selector_classes (s1 +:+ s2) = selector_classes s1 ++ selector_classes s2.
Proof.
  intros Hs. split; [|split].
  - unfold patterns.tag. by rewrite word_run_boundary.
  - unfold selector_id. rewrite id_boundary by done.
    by destruct (patterns.id s1).
  - rewrite !selector_classes_class_from, class_from_boundary, map_app by (done || lia).
    done.
Qed.

Lemma id_match_run s m : patterns.id s = Some m -> run (group1 m).
Proof.
  induction s as [|c s IH]; simpl; [done|].
  destruct (Ascii.eqb c "#"); [|done].
  destruct (word_run s) as [|a r] eqn:Hr; [done|].
  intros [= <-]. simpl. split; [done|].
  rewrite <- Hr. apply all_word_word_run.
Qed.

Lemma selector_tag_run s : run (selector_tag s).
Proof.
  unfold selector_tag, patterns.tag.
  destruct (word_run s) as [|a r] eqn:Hr; [by split|].
  simpl. split; [done|]. rewrite <- Hr. apply all_word_word_run.
Qed.

(** X2: whatever the selector, the name given to the element factory is
    a non-empty run of class characters ([div] when the selector has no
    leading run), an identifier that is found is a non-empty run, and so
    is every class: no scan ever yields an empty name. *)
Theorem extracted_pieces_are_runs s :
  run (selector_tag s) ∧
  (∀ i, selector_id s = Some i -> run i) ∧
  Forall run (selector_classes s).
Proof.
  split; [apply selector_tag_run|]. split; [|apply selector_classes_runs].
  intros i. unfold selector_id.
  destruct (patterns.id s) as [m|] eqn:Hm; [|done].
  intros [= <-]. by eapply id_match_run.
Qed.

Lemma id_at_hash_boundary r s :
  run r -> word_run s = "" ->
  patterns.id (String "#" (r +:+ s)) = Some (MatchArray (String "#" r) r).
Proof.
  intros [Hne Hr] Hs. simpl.
  rewrite (word_run_app _ _ Hr), Hs, append_empty_r.
  destruct r; [done|reflexivity].
Qed.

Lemma word_run_dotted cs : word_run (dotted cs) = "".
Proof. by destruct cs. Qed.

Lemma class_from_dotted cs :
  Forall run cs ->
  map (slice 1) (patterns.class_from 0 (dotted cs)) = cs.
Proof.
  induction 1 as [|c cs Hc _ IH]; [done|].
  change (dotted (c :: cs)) with (String "." (c +:+ dotted cs)).
  rewrite (class_from_at_dot _ _ Hc (word_run_dotted cs)).
  cbn [map]. by rewrite IH.
Qed.

Lemma id_dotted cs : Forall run cs -> patterns.id (dotted cs) = None.
Proof.
  induction 1 as [|c cs [_ Hc] _ IH]; [done|].
  change (dotted (c :: cs)) with (String "." (c +:+ dotted cs)).
  change (patterns.id (String "." ?s)) with (patterns.id s).
  by rewrite id_skip_run.
Qed.

(** X3: a selector made of a tag, an identifier and any number of
    classes, the identifier standing before the classes or after them,
    yields that tag, that identifier and those classes in their order. *)
Theorem tag_id_classes_any_order tag i cs :
  run tag -> run i -> Forall run cs ->
  let id_first := tag +:+ String "#" (i +:+ dotted cs) in
  let id_last := tag +:+ dotted cs +:+ String "#" i in
  (selector_tag id_first = tag ∧
   selector_id id_first = Some i ∧
   selector_classes id_first = cs) ∧
  (selector_tag id_last = tag ∧
   selector_id id_last = Some i ∧
   selector_classes id_last = cs).
Proof.
  intros Htag Hi Hcs id_first id_last.
  pose proof (word_run_dotted cs) as Hd.
  assert (patterns.id (String "#" i) = Some (MatchArray (String "#" i) i))
    as Hid.
  { rewrite <- (append_empty_r i) at 1. by apply id_at_hash_boundary. }
  split; split; [| split | | split].
  - unfold selector_tag, id_first. by rewrite tag_of_run.
  - unfold selector_id, id_first.
    rewrite id_skip_run by apply Htag. by rewrite id_at_hash_boundary.
  - rewrite selector_classes_class_from. unfold id_first.
    rewrite class_from_over_run by apply Htag.
    change (patterns.class_from 0 (String "#" ?s))
      with (patterns.class_from 0 s).
    rewrite class_from_over_run by apply Hi. by apply class_from_dotted.
  - unfold selector_tag, patterns.tag, id_last.
    rewrite word_run_app by apply Htag.
    rewrite word_run_boundary by done. rewrite Hd, append_empty_r.
    destruct Htag as [Hne _]. by destruct tag.
  - unfold selector_id, id_last. rewrite id_skip_run by apply Htag.
    rewrite id_boundary by done. by rewrite id_dotted, Hid.
  - rewrite selector_classes_class_from. unfold id_last.
    rewrite class_from_over_run by apply Htag.
    rewrite class_from_boundary by (done || lia).
    change (patterns.class_from 0 (String "#" i))
      with (patterns.class_from 0 i).
    rewrite map_app, class_from_dotted by done.
    destruct Hi as [_ Hi].
    rewrite <- (append_empty_r i), class_from_over_run by done.
    simpl. apply app_nil_r.
Qed.

Lemma class_from_transparent c s :
  Ascii.eqb c "." = false ->
  patterns.class_from 0 (String c s) = patterns.class_from 0 s.
Proof. intros Hc. simpl. by rewrite Hc. Qed.

Lemma id_transparent c s :
  Ascii.eqb c "#" = false ->
  patterns.id (String c s) = patterns.id s.
Proof. intros Hc. simpl. by rewrite Hc. Qed.

(** X4: brackets do not shield their contents.  The identifier and the
    classes of [s1[s2]s3] are those of the three pieces read one after
    the other, so a [#] or a [.] between the brackets counts as a
    marker. *)
Theorem brackets_are_transparent s1 s2 s3 :
  selector_id (s1 +:+ String "[" (s2 +:+ String "]" s3))
  = first_of (selector_id s1) (first_of (selector_id s2) (selector_id s3)) ∧
  selector_classes (s1 +:+ String "[" (s2 +:+ String "]" s3))
  = selector_classes s1 ++ selector_classes s2 ++ selector_classes s3.
Proof.
  split.
  - unfold selector_id.
    rewrite id_boundary, id_transparent, id_boundary, id_transparent by done.
    by destruct (patterns.id s1), (patterns.id s2).
  - rewrite !selector_classes_class_from.
    rewrite class_from_boundary, class_from_transparent by (done || lia).
    rewrite class_from_boundary, class_from_transparent by (done || lia).
    by rewrite !map_app.
Qed.

(** ** The static tag against the tag at run time *)

Lemma infer_before_Some d S Tag :
  infer_before d S = Some Tag -> ∃ rest, S = Tag +:+ String d rest.
Proof.
  revert Tag. induction S as [|c S IH]; intros Tag; simpl; [done|].
  destruct (Ascii.eqb_spec c d) as [->|Hc].
  - intros [= <-]. by exists S.
  - destruct (infer_before d S) as [t|]; [|done].
    intros [= <-]. destruct (IH t eq_refl) as [rest ->]. by exists rest.
Qed.

Lemma infer_before_app d a b :
  occurs d a = false -> infer_before d (a +:+ String d b) = Some a.
Proof.
  induction a as [|c a IH].
  - intros _. simpl. by rewrite Ascii.eqb_refl.
  - simpl occurs. intros [Hc Ha]%orb_false_elim. rewrite append_cons. simpl.
    by rewrite Hc, IH.
Qed.

Lemma occurs_app d a b : occurs d (a +:+ b) = occurs d a || occurs d b.
Proof.
  induction a as [|c a IH]; [done|]. rewrite append_cons. simpl.
  by rewrite IH, orb_assoc.
Qed.

Lemma all_word_no_hash s : all_word s = true -> occurs "#" s = false.
Proof.
  induction s as [|c s IH]; simpl; [done|].
  intros [Hc Hs]%andb_prop. by rewrite (word_char_not_hash c Hc), IH.
Qed.

Lemma all_word_app a b : all_word (a +:+ b) = all_word a && all_word b.
Proof.
  induction a as [|c a IH]; [done|]. rewrite append_cons. simpl.
  by rewrite IH, andb_assoc.
Qed.

Lemma selector_tag_of_run t : run t -> selector_tag t = t.
Proof.
  intros [Hne Ht]. unfold selector_tag, patterns.tag.
  rewrite <- (append_empty_r t) at 1.
  rewrite (word_run_app _ _ Ht), append_empty_r. by destruct t.
Qed.

Lemma selector_tag_before t c rest :
  run t -> word_char c = false -> selector_tag (t +:+ String c rest) = t.
Proof. intros Ht Hc. unfold selector_tag. by rewrite tag_of_run. Qed.

Lemma static_runtime_agree S :
  run (ExtractTagName S) -> selector_tag S = ExtractTagName S.
Proof.
  unfold ExtractTagName.
  destruct (infer_before "#" S) as [t|] eqn:H1.
  { destruct (infer_before_Some _ _ _ H1) as [rest ->]. intros Ht.
    by apply selector_tag_before. }
  destruct (infer_before "." S) as [t|] eqn:H2.
  { destruct (infer_before_Some _ _ _ H2) as [rest ->]. intros Ht.
    by apply selector_tag_before. }
  destruct (infer_before "[" S) as [t|] eqn:H3.
  { destruct (infer_before_Some _ _ _ H3) as [rest ->]. intros Ht.
    by apply selector_tag_before. }
  apply selector_tag_of_run.
Qed.

(** X5: the static type is sound where it comes from the table.  With
    a table keyed by tag names (runs of class characters), whenever
    [ElementFromSelector] finds [ExtractTagName<S>] in the table, the
    element is created at run time under that very key. *)
Theorem static_type_sound {T : Type} (HTMLElementTagNameMap : string -> option T)
    (HTMLDivElement : T) S t :
  (∀ k x, HTMLElementTagNameMap k = Some x -> run k) ->
  HTMLElementTagNameMap (ExtractTagName S) = Some t ->
  ElementFromSelector HTMLElementTagNameMap HTMLDivElement S = t ∧
  selector_tag S = ExtractTagName S.
Proof.
  intros Hkeys Ht. split.
  - unfold ElementFromSelector. by rewrite Ht.
  - apply static_runtime_agree. by eapply Hkeys.
Qed.

(** X6: when [ExtractTagName<S>] is the empty string (the selector
    starts with its first marker, or is empty), the static type falls
    back to the division type, and the element is created as [div]. *)
Theorem static_empty_tag_is_div {T : Type}
    (HTMLElementTagNameMap : string -> option T) (HTMLDivElement : T) S :
  (∀ k x, HTMLElementTagNameMap k = Some x -> run k) ->
  ExtractTagName S = "" ->
  ElementFromSelector HTMLElementTagNameMap HTMLDivElement S = HTMLDivElement ∧
  selector_tag S = "div".
Proof.
  intros Hkeys He. split.
  - unfold ElementFromSelector. rewrite He.
    destruct (HTMLElementTagNameMap "") as [x|] eqn:Hx; [|done].
    by destruct (Hkeys _ _ Hx) as [Hne _].
  - revert He. unfold ExtractTagName.
    destruct (infer_before "#" S) as [t|] eqn:H1.
    { intros ->. by destruct (infer_before_Some _ _ _ H1) as [rest ->]. }
    destruct (infer_before "." S) as [t|] eqn:H2.
    { intros ->. by destruct (infer_before_Some _ _ _ H2) as [rest ->]. }
    destruct (infer_before "[" S) as [t|] eqn:H3.
    { intros ->. by destruct (infer_before_Some _ _ _ H3) as [rest ->]. }
    by intros ->.
Qed.

(** X7: a class written before the identifier defeats the static tag.
    For [tag.c#rest] the conditional type tries [#] first, so
    [ExtractTagName] is [tag.c], which is no tag name: the static type
    is the division type whatever [tag] is, while the element is created
    as [tag]. *)
Theorem class_before_id_typed_as_div {T : Type}
    (HTMLElementTagNameMap : string -> option T) (HTMLDivElement : T)
    tag c rest :
  (∀ k x, HTMLElementTagNameMap k = Some x -> run k) ->
  run tag -> all_word c = true ->
  let S := tag +:+ String "." (c +:+ String "#" rest) in
  ExtractTagName S = tag +:+ String "." c ∧
  ElementFromSelector HTMLElementTagNameMap HTMLDivElement S = HTMLDivElement ∧
  selector_tag S = tag.
Proof.
  intros Hkeys Htag Hc S.
  assert (ExtractTagName S = tag +:+ String "." c) as He.
  { unfold ExtractTagName, S.
    replace (tag +:+ String "." (c +:+ String "#" rest))
      with ((tag +:+ String "." c) +:+ String "#" rest)
      by (by rewrite append_assoc, append_cons).
    rewrite infer_before_app; [done|].
    rewrite occurs_app. simpl.
    destruct Htag as [_ Htag].
    by rewrite (all_word_no_hash _ Htag), (all_word_no_hash _ Hc). }
  split; [exact He|]. split.
  - unfold ElementFromSelector. rewrite He.
    destruct (HTMLElementTagNameMap _) as [x|] eqn:Hx; [|done].
    destruct (Hkeys _ _ Hx) as [_ Hw].
    rewrite all_word_app in Hw. simpl in Hw.
    by rewrite andb_false_r in Hw.
  - by apply selector_tag_before.
Qed.

(** ** Tails the builder does not read *)

Section MoreProperties.

Context `{Host}.

Lemma dollar_ext s s' rest h :
  selector_tag s = selector_tag s' ->
  patterns.id s = patterns.id s' ->
  patterns.class s = patterns.class s' ->
  dollar s rest h = dollar s' rest h.
Proof.
  intros Ht Hi Hc. unfold dollar.
  fold (selector_tag s) (selector_tag s'). by rewrite Ht, Hi, Hc.
Qed.

(** X8: a tail that starts outside the class of the patterns and holds
    neither [#] nor [.] (an attribute bracket such as [[disabled]], a
    blank, a pseudo-class) changes nothing: the call behaves as on the
    selector without it, for every list of trailing arguments. *)
Theorem tail_without_markers_ignored s tail rest h :
  word_run tail = "" ->
  occurs "#" tail = false -> occurs "." tail = false ->
  dollar (s +:+ tail) rest h = dollar s rest h.
Proof.
  intros Hr Hh Hd. apply dollar_ext.
  - unfold selector_tag, patterns.tag. by rewrite word_run_boundary.
  - rewrite id_boundary, (id_none_without_hash _ Hh) by done.
    by destruct (patterns.id s).
  - unfold patterns.class.
    rewrite class_from_boundary by (done || lia).
    by rewrite (class_from_none_without_dot _ _ Hd), app_nil_r.
Qed.

(** ** What a call builds *)

(** X9: a call without trailing arguments has two outcomes only.  If
    the factory accepts the tag, the store gains one node, the new
    element with the identifier and the classes of the selector, and the
    call returns it; otherwise the factory's error leaves with the store
    untouched.  Assigning the identifier and adding the classes never
    raise, whatever the selector. *)
Theorem construction_fails_only_on_tag s h :
  dollar s [] h
  = if valid_name (selector_tag s) then
      (h ++ [Node None (HTMLElement (fresh_element s))], Normal (length h))
    else (h, Throw (DOMException "InvalidCharacterError")).
Proof.
  destruct (valid_name (selector_tag s)) eqn:Hv.
  - by rewrite dollar_created.
  - by rewrite dollar_refused.
Qed.

Lemma token_set_append_spec set ts :
  NoDup set ->
  NoDup (token_set_append set ts) ∧
  ∀ c, c ∈ token_set_append set ts <-> c ∈ set ∨ c ∈ ts.
Proof.
  revert set. induction ts as [|t ts IH]; intros set Hset; simpl.
  - split; [done|]. intros c. rewrite elem_of_nil. tauto.
  - case_bool_decide as Hin.
    + destruct (IH set Hset) as [Hnd Hmem]. split; [done|].
      intros c. rewrite Hmem, elem_of_cons.
      split; [tauto|]. intros [?|[->|?]]; tauto.
    + destruct (IH (set ++ [t])) as [Hnd Hmem].
      { apply NoDup_app. split; [done|]. split; [|apply NoDup_singleton].
        intros x Hx ->%list_elem_of_singleton. done. }
      split; [done|]. intros c.
      rewrite Hmem, elem_of_app, list_elem_of_singleton, elem_of_cons. tauto.
Qed.

(** X10: the class list of the element a call returns is a set.  With
    no trailing arguments it holds every class of the selector once,
    however often the selector repeats it, and nothing else. *)
Theorem class_list_is_a_set s h h' el :
  dollar s [] h = (h', Normal el) ->
  ∃ e,
    element_at h' el = Some e ∧
    NoDup (Element.classList e) ∧
    ∀ c, c ∈ Element.classList e <-> c ∈ selector_classes s.
Proof.
  intros (Hv & -> & Hrun)%dollar_Normal. simpl in Hrun.
  injection Hrun as <-.
  exists (fresh_element s). split.
  - unfold element_at. by rewrite lookup_fresh.
  - destruct (token_set_append_spec [] (selector_classes s)) as [Hnd Hmem];
      [constructor|].
    split; [exact Hnd|]. intros c. simpl. rewrite Hmem, elem_of_nil. tauto.
Qed.

Lemma forEach_strings ss :
  ∀ (h0 : heap) el e,
    h0 !! el = Some (Node None (HTMLElement e)) ->
    forEach (VString <$> ss) (each_prop el) h0
    = (<[el := Node None (HTMLElement
                 (with_childNodes
                    (Element.childNodes e ++ seq (length h0) (length ss)) e))]> h0
       ++ texts el ss,
       Normal tt).
Proof.
  induction ss as [|s ss IH]; intros h0 el e Hel.
  - simpl. unfold ret. rewrite !app_nil_r.
    rewrite list_insert_id; [done|]. rewrite Hel. by destruct e.
  - pose proof (lookup_lt_Some _ _ _ Hel) as Hlt.
    cbn [fmap list_fmap forEach]. unfold bind.
    rewrite (each_prop_string el s h0 None e Hel).
    2:{ intros fuel n. eapply inclusive_ancestor_root.
        - by apply lookup_app_l_Some.
        - lia. }
    erewrite IH.
    2:{ rewrite lookup_app_l by by rewrite length_insert.
        by apply list_lookup_insert_eq. }
    rewrite insert_twice_app by done.
    rewrite length_app, length_insert. simpl.
    rewrite <- app_assoc. simpl.
    by replace (length h0 + 1) with (S (length h0)) by lia.
Qed.

(** X11: string arguments become text nodes, in call order.  With a tag
    the factory accepts, [$(s, t1, ..., tn)] adds the new element and
    then one text node per string (an empty string too) to the store;
    the element's children are those n nodes in order, each with the
    element as parent, and the call does not raise. *)
Theorem strings_become_text_children s ss h :
  valid_name (selector_tag s) = true ->
  dollar s (VString <$> ss) h
  = (h ++ [Node None (HTMLElement
             (with_childNodes (seq (S (length h)) (length ss))
                              (fresh_element s)))]
       ++ texts (length h) ss,
     Normal (length h)).
Proof.
  intros Hv. rewrite dollar_created by done. unfold bind.
  rewrite (forEach_strings ss _ _ _ (lookup_fresh h _)).
  unfold ret. f_equal.
  rewrite insert_app_r_alt, Nat.sub_diag by lia.
  rewrite length_app. simpl.
  replace (length h + 1) with (S (length h)) by lia.
  by rewrite <- app_assoc.
Qed.

(** ** Elements as children *)

Lemma length_update_element f l (h : heap) :
  length (update_element f l h) = length h.
Proof. apply length_alter. Qed.

Lemma length_set_parent p l (h : heap) : length (set_parent p l h) = length h.
Proof. apply length_alter. Qed.

Lemma appendChild_length parent child (h h' : heap) r :
  appendChild parent child h = (h', r) -> length h' = length h.
Proof.
  unfold appendChild.
  destruct (h !! parent) as [[pp [pe|pd]]|]; try by intros [= <- _].
  destruct (h !! child) as [c|]; [|by intros [= <- _]].
  destruct (inclusive_ancestor _ _ _ _); [by intros [= <- _]|].
  intros [= <- _].
  rewrite length_update_element, length_set_parent.
  destruct (parentNode c); [apply length_update_element|done].
Qed.

Lemma appendChild_parent_other parent child (h h' : heap) r l :
  appendChild parent child h = (h', r) -> l ≠ child ->
  parentNode <$> h' !! l = parentNode <$> h !! l.
Proof.
  unfold appendChild.
  destruct (h !! parent) as [[pp [pe|pd]]|]; try by intros [= <- _].
  destruct (h !! child) as [c|]; [|by intros [= <- _]].
  destruct (inclusive_ancestor _ _ _ _); [by intros [= <- _]|].
  intros [= <- _] Hl.
  assert (∀ f x (g : heap),
            parentNode <$> update_element f x g !! l = parentNode <$> g !! l)
    as Hupd.
  { intros f x g. rewrite lookup_update_element. case_decide; [|done].
    by destruct (g !! l) as [[q [e|d]]|]. }
  rewrite Hupd, lookup_set_parent, decide_False by done.
  destruct (parentNode c); [apply Hupd|done].
Qed.

Lemma filter_ne_absent (c : loc) (ls : list loc) :
  c ∉ ls -> filter (fun x => x ≠ c) ls = ls.
Proof.
  induction ls as [|x ls IH]; [done|].
  intros [Hx Hls]%not_elem_of_cons.
  rewrite filter_cons, decide_True by done. by rewrite IH.
Qed.

Lemma element_at_lookup (h : heap) l e :
  element_at h l = Some e -> ∃ p, h !! l = Some (Node p (HTMLElement e)).
Proof.
  unfold element_at.
  destruct (h !! l) as [[p [e'|d]]|]; [|done..]. intros [= <-]. by exists p.
Qed.

Lemma forEach_elements cs :
  ∀ done (h0 : heap) el e0,
    h0 !! el = Some (Node None (HTMLElement (with_childNodes done e0))) ->
    NoDup cs ->
    (∀ c, c ∈ cs -> c ∉ done) ->
    (∀ c, c ∈ cs -> is_Some (element_at h0 c)) ->
    el ∉ cs ->
    (∀ c, c ∈ done -> parentNode <$> h0 !! c = Some (Some el)) ->
    ∃ h',
      forEach (VNode <$> cs) (each_prop el) h0 = (h', Normal tt) ∧
      length h' = length h0 ∧
      h' !! el
      = Some (Node None (HTMLElement (with_childNodes (done ++ cs) e0))) ∧
      (∀ c, c ∈ done ++ cs -> parentNode <$> h' !! c = Some (Some el)) ∧
      ∀ l, skeleton <$> element_at h' l = skeleton <$> element_at h0 l.
Proof.
  induction cs as [|c cs IH]; intros done h0 el e0 Hel Hnd Hfresh Helem Hne Hpar.
  - exists h0. rewrite app_nil_r. by repeat split.
  - apply NoDup_cons in Hnd as [Hc Hnd].
    apply not_elem_of_cons in Hne as [Hce Hne].
    destruct (Helem c) as [ec Hec]; [by left|].
    destruct (element_at_lookup _ _ _ Hec) as [pc Hlc].
    destruct (each_prop_element el c h0 None (with_childNodes done e0) pc ec
                Hel Hlc) as (h1 & E1 & Hel1 & Hpc).
    { eapply inclusive_ancestor_root; [exact Hel|congruence]. }
    assert (∃ r, appendChild el c h0 = (h1, r)) as [r Happ].
    { revert E1. unfold each_prop. simpl. rewrite Hlc. unfold bind.
      destruct (appendChild el c h0) as [h1' [x|e]];
        intros [= <-]; by eexists. }
    assert ((if decide (pc = Some el)
             then filter (fun x => x ≠ c)
                    (Element.childNodes (with_childNodes done e0))
             else Element.childNodes (with_childNodes done e0)) = done) as Hch.
    { case_decide; [|done]. apply filter_ne_absent, Hfresh. by left. }
    rewrite Hch in Hel1.
    destruct (IH (done ++ [c]) h1 el e0) as (h' & Erun & Hlen & Hel' & Hpar' & Hsk).
    + exact Hel1.
    + exact Hnd.
    + intros c' Hc' [Hd| ->%list_elem_of_singleton]%elem_of_app; [|done].
      eapply Hfresh; [by right|done].
    + intros c' Hc'.
      pose proof (appendChild_skeleton _ _ _ _ _ c' Happ) as Hs.
      destruct (Helem c') as [e' He']; [by right|].
      rewrite He' in Hs. by destruct (element_at h1 c').
    + exact Hne.
    + intros c' [Hd| ->%list_elem_of_singleton]%elem_of_app; [|exact Hpc].
      rewrite (appendChild_parent_other _ _ _ _ _ c' Happ); [by apply Hpar|].
      intros ->. eapply Hfresh; [by left|done].
    + exists h'. cbn [fmap list_fmap forEach]. unfold bind. rewrite E1.
      split; [exact Erun|]. split.
      { by rewrite Hlen, (appendChild_length _ _ _ _ _ Happ). }
      rewrite <- app_assoc in Hel', Hpar'. split; [exact Hel'|].
      split; [exact Hpar'|].
      intros l. by rewrite Hsk, (appendChild_skeleton _ _ _ _ _ l Happ).
Qed.

(** X13: elements given as arguments become the children, in call
    order, and are moved, not copied.  With a tag the factory accepts
    and distinct elements [cs] of the store, [$(s, ...cs)] does not
    raise; the store gains the new element and nothing else; the new
    element's children are exactly [cs]; each of them has the new
    element as parent; and the elements that were in the store keep
    their tag, identifier, classes and properties. *)
Theorem elements_become_children s cs (h : heap) :
  valid_name (selector_tag s) = true ->
  NoDup cs ->
  (∀ c, c ∈ cs -> is_Some (element_at h c)) ->
  ∃ h',
    dollar s (VNode <$> cs) h = (h', Normal (length h)) ∧
    length h' = S (length h) ∧
    element_at h' (length h) = Some (with_childNodes cs (fresh_element s)) ∧
    (∀ c, c ∈ cs -> parentNode <$> h' !! c = Some (Some (length h))) ∧
    ∀ l, l < length h ->
         skeleton <$> element_at h' l = skeleton <$> element_at h l.
Proof.
  intros Hv Hnd Helem.
  assert (∀ c, c ∈ cs -> c < length h) as Hlt.
  { intros c Hc. destruct (Helem c Hc) as [e He].
    destruct (element_at_lookup _ _ _ He) as [p Hp].
    by eapply lookup_lt_Some. }
  destruct (forEach_elements cs []
              (h ++ [Node None (HTMLElement (fresh_element s))])
              (length h) (fresh_element s))
    as (h' & Erun & Hlen & Hel & Hpar & Hsk).
  - apply lookup_fresh.
  - exact Hnd.
  - intros c _. apply not_elem_of_nil.
  - intros c Hc. unfold element_at. rewrite lookup_app_l by auto.
    apply (Helem c Hc).
  - intros Hin. apply Hlt in Hin. lia.
  - intros c Hc. by apply elem_of_nil in Hc.
  - exists h'. rewrite dollar_created by done. unfold bind. rewrite Erun.
    split; [done|]. split.
    { rewrite Hlen, length_app. simpl. lia. }
    split; [unfold element_at; by rewrite Hel|].
    split; [exact Hpar|].
    intros l Hl. rewrite Hsk. unfold element_at. by rewrite lookup_app_l.
Qed.

(** X14: an element that already has a parent leaves it.  When [c] is
    a child of the element [p0], [$(s, c)] takes [c] out of the
    children of [p0], makes it the only child of the new element, and
    leaves [c] itself as it was but for its parent. *)
Theorem child_is_moved s c p0 pp ec e0 (h : heap) :
  valid_name (selector_tag s) = true ->
  h !! c = Some (Node (Some p0) (HTMLElement ec)) ->
  h !! p0 = Some (Node pp (HTMLElement e0)) ->
  p0 ≠ c ->
  ∃ h',
    dollar s [VNode c] h = (h', Normal (length h)) ∧
    length h' = S (length h) ∧
    h' !! p0
    = Some (Node pp (HTMLElement
         (with_childNodes
            (filter (fun x => x ≠ c) (Element.childNodes e0)) e0))) ∧
    h' !! c = Some (Node (Some (length h)) (HTMLElement ec)) ∧
    h' !! length h
    = Some (Node None (HTMLElement (with_childNodes [c] (fresh_element s)))).
Proof.
  intros Hv Hc Hp0 Hne.
  pose proof (lookup_lt_Some _ _ _ Hc) as Hlc.
  pose proof (lookup_lt_Some _ _ _ Hp0) as Hlp.
  set (h0 := h ++ [Node None (HTMLElement (fresh_element s))]).
  assert (h0 !! c = Some (Node (Some p0) (HTMLElement ec))) as Hc0
    by by apply lookup_app_l_Some.
  assert (h0 !! p0 = Some (Node pp (HTMLElement e0))) as Hp00
    by by apply lookup_app_l_Some.
  assert (h0 !! length h = Some (Node None (HTMLElement (fresh_element s))))
    as Hel0 by apply lookup_fresh.
  eexists. split; [|split; [|split; [|split]]].
  - rewrite dollar_created by done. fold h0. unfold bind. simpl. unfold bind.
    unfold each_prop. simpl. rewrite Hc0. unfold bind, appendChild.
    rewrite Hel0, Hc0.
    rewrite (inclusive_ancestor_root _ _ _ _ _ Hel0) by lia.
    simpl. reflexivity.
  - rewrite length_update_element, length_set_parent, length_update_element.
    unfold h0. rewrite length_app. simpl. lia.
  - rewrite lookup_update_element, decide_False by lia.
    rewrite lookup_set_parent, decide_False by done.
    rewrite lookup_update_element, decide_True by done.
    by rewrite Hp00.
  - rewrite lookup_update_element, decide_False by lia.
    rewrite lookup_set_parent, decide_True by done.
    rewrite lookup_update_element, decide_False by done.
    by rewrite Hc0.
  - rewrite lookup_update_element, decide_True by done.
    rewrite lookup_set_parent, decide_False by lia.
    rewrite lookup_update_element, decide_False by lia.
    by rewrite Hel0.
Qed.

(** X15: a call that is given no node and no callable or property write
    with an effect outside the new element only adds to the store.
    When it returns, the store it found is the first part of the store
    it leaves, node for node; the new element sits right behind it,
    without parent, and the tree that hangs at the element is made of
    new nodes only. *)
Theorem quiet_call_extends_store s rest (h h' : heap) el :
  Forall quiet rest ->
  dollar s rest h = (h', Normal el) ->
  el = length h ∧
  take (length h) h' = h ∧
  ∃ fields children, shape (length h) h' None el (TElement fields children).
Proof.
  intros Hrest (Hv & -> & Hrun)%dollar_Normal. split; [done|].
  destruct (loop_quiet rest Hrest _ _ _ _ _ _
              (shape_fresh h (fresh_element s) eq_refl) Hrun)
    as (Ht & f & ts & Hs).
  rewrite take_app_length in Ht. eauto.
Qed.

End MoreProperties.

Lemma infer_before_None d S : occurs d S = false -> infer_before d S = None.
Proof.
  induction S as [|c S IH]; simpl; [done|].
  intros [Hc HS]%orb_false_elim. by rewrite Hc, IH.
Qed.

Lemma word_char_no_occurs d s :
  word_char d = false -> all_word s = true -> occurs d s = false.
Proof.
  intros Hd. induction s as [|c s IH]; simpl; [done|].
  intros [Hc Hs]%andb_prop. rewrite IH by done.
  destruct (Ascii.eqb_spec c d) as [->|]; [congruence|done].
Qed.

(** X16: where the static tag is the tag at run time.  For a tag
    followed by [#] the two agree whatever comes after; for a tag
    followed by [.] they agree when no [#] comes after; for a tag
    followed by [[] they agree when neither [#] nor [.] comes after. *)
Theorem static_tag_agrees tag rest :
  run tag ->
  (ExtractTagName (tag +:+ String "#" rest) = tag ∧
   selector_tag (tag +:+ String "#" rest) = tag) ∧
  (occurs "#" rest = false ->
   ExtractTagName (tag +:+ String "." rest) = tag ∧
   selector_tag (tag +:+ String "." rest) = tag) ∧
  (occurs "#" rest = false -> occurs "." rest = false ->
   ExtractTagName (tag +:+ String "[" rest) = tag ∧
   selector_tag (tag +:+ String "[" rest) = tag).
Proof.
  intros Htag. pose proof Htag as [_ Hw].
  assert (∀ d, word_char d = false -> occurs d tag = false) as Hno.
  { intros d Hd. by apply word_char_no_occurs. }
  split; [|split].
  - split; [|by apply selector_tag_before].
    unfold ExtractTagName. by rewrite infer_before_app by by apply Hno.
  - intros Hh. split; [|by apply selector_tag_before].
    unfold ExtractTagName.
    rewrite (infer_before_None "#").
    + by rewrite (infer_before_app ".") by by apply Hno.
    + rewrite occurs_app. simpl. by rewrite Hno, Hh.
  - intros Hh Hd. split; [|by apply selector_tag_before].
    unfold ExtractTagName.
    rewrite (infer_before_None "#"), (infer_before_None ".").
    + by rewrite (infer_before_app "[") by by apply Hno.
    + rewrite occurs_app. simpl. by rewrite Hno, Hd.
    + rewrite occurs_app. simpl. by rewrite Hno, Hh.
Qed.

(** ** The sample host at work, again *)

(** A few rows of the table of element types. *)
Definition sample_tag_table : list (string * string) :=
  [("a", "HTMLAnchorElement"); ("button", "HTMLButtonElement");
   ("div", "HTMLDivElement"); ("input", "HTMLInputElement");
   ("li", "HTMLLIElement"); ("ul", "HTMLUListElement")].

Definition sample_tag_map (k : string) : option string :=
  snd <$> find (fun row => String.eqb (fst row) k) sample_tag_table.

Lemma sample_tag_map_keys k x : sample_tag_map k = Some x -> run k.
Proof.
  unfold sample_tag_map, sample_tag_table. cbn [find fst].
  repeat match goal with
         | |- context [String.eqb ?a k] =>
             destruct (String.eqb_spec a k) as [<-|_]; [by split|]
         end.
  done.
Qed.

Lemma scans_are_local_witness :
  word_run "#x.b" = "" ∧
  patterns.tag ("div.a" +:+ "#x.b") = patterns.tag "div.a" ∧
  selector_id ("div.a" +:+ "#x.b")
  = first_of (selector_id "div.a") (selector_id "#x.b") ∧
  selector_classes ("div.a" +:+ "#x.b")
  = selector_classes "div.a" ++ selector_classes "#x.b".
Proof.
  split; [reflexivity|]. apply (scans_are_local "div.a" "#x.b"). reflexivity.
Defined.

Lemma extracted_pieces_are_runs_witness :
  selector_id "form#login" = Some "login" ∧ run "login".
Proof.
  split; [reflexivity|].
  destruct (extracted_pieces_are_runs "form#login") as (_ & Hid & _).
  apply Hid. reflexivity.
Defined.

Lemma tag_id_classes_any_order_witness :
  run "input" ∧ run "email" ∧ Forall run ["a"; "b"; "c"] ∧
  selector_classes "input#email.a.b.c" = ["a"; "b"; "c"] ∧
  selector_classes "input.a.b.c#email" = ["a"; "b"; "c"] ∧
  selector_id "input.a.b.c#email" = Some "email".
Proof.
  assert (run "input") as Ht by by split.
  assert (run "email") as Hi by by split.
  assert (Forall run ["a"; "b"; "c"]) as Hcs by (repeat constructor; done).
  split; [exact Ht|]. split; [exact Hi|]. split; [exact Hcs|].
  destruct (tag_id_classes_any_order "input" "email" ["a"; "b"; "c"] Ht Hi Hcs)
    as [(_ & _ & H1) (_ & H2 & H3)].
  split; [exact H1|]. split; [exact H3|exact H2].
Defined.

Lemma static_type_sound_witness :
  sample_tag_map (ExtractTagName "input#email.form-control")
  = Some "HTMLInputElement" ∧
  ElementFromSelector sample_tag_map "HTMLDivElement" "input#email.form-control"
  = "HTMLInputElement" ∧
  selector_tag "input#email.form-control"
  = ExtractTagName "input#email.form-control".
Proof.
  split; [reflexivity|].
  apply (static_type_sound sample_tag_map "HTMLDivElement"
           "input#email.form-control" "HTMLInputElement"
           sample_tag_map_keys eq_refl).
Defined.

Lemma static_empty_tag_is_div_witness :
  ExtractTagName ".container" = "" ∧
  ElementFromSelector sample_tag_map "HTMLDivElement" ".container"
  = "HTMLDivElement" ∧
  selector_tag ".container" = "div".
Proof.
  split; [reflexivity|].
  apply (static_empty_tag_is_div sample_tag_map "HTMLDivElement" ".container"
           sample_tag_map_keys eq_refl).
Defined.

Lemma class_before_id_typed_as_div_witness :
  run "input" ∧ all_word "big" = true ∧
  ExtractTagName "input.big#email" = "input.big" ∧
  ElementFromSelector sample_tag_map "HTMLDivElement" "input.big#email"
  = "HTMLDivElement" ∧
  selector_tag "input.big#email" = "input".
Proof.
  assert (run "input") as Ht by by split.
  split; [exact Ht|]. split; [reflexivity|].
  apply (class_before_id_typed_as_div sample_tag_map "HTMLDivElement"
           "input" "big" "email" sample_tag_map_keys Ht eq_refl).
Defined.

Lemma static_tag_agrees_witness :
  run "button" ∧ occurs "#" "btn.primary" = false ∧
  ExtractTagName "button.btn.primary" = "button" ∧
  selector_tag "button.btn.primary" = "button".
Proof.
  assert (run "button") as Ht by by split.
  split; [exact Ht|]. split; [reflexivity|].
  destruct (static_tag_agrees "button" "btn.primary" Ht) as (_ & Hdot & _).
  apply Hdot. reflexivity.
Defined.

Lemma tail_without_markers_ignored_witness :
  word_run "[disabled]" = "" ∧
  occurs "#" "[disabled]" = false ∧ occurs "." "[disabled]" = false ∧
  @dollar sample_host ("button.btn" +:+ "[disabled]") [VString "OK"] []
  = @dollar sample_host "button.btn" [VString "OK"] [].
Proof.
  repeat (split; [reflexivity|]).
  by apply (@tail_without_markers_ignored sample_host "button.btn" "[disabled]"
              [VString "OK"] []).
Defined.

Lemma class_list_is_a_set_witness :
  ∃ e,
    element_at [Node None (HTMLElement (fresh_element ".a.b.a"))] 0 = Some e ∧
    NoDup (Element.classList e) ∧
    ∀ c, c ∈ Element.classList e <-> c ∈ selector_classes ".a.b.a".
Proof.
  apply (@class_list_is_a_set sample_host ".a.b.a" []). reflexivity.
Defined.

Lemma strings_become_text_children_witness :
  sample_valid_name (selector_tag "p") = true ∧
  @dollar sample_host "p" (VString <$> ["a"; ""; "b"]) []
  = ([] ++ [Node None (HTMLElement
              (with_childNodes (seq 1 3) (fresh_element "p")))]
        ++ texts 0 ["a"; ""; "b"],
     Normal 0).
Proof.
  split; [reflexivity|].
  by apply (@strings_become_text_children sample_host "p" ["a"; ""; "b"] []).
Defined.

Lemma elements_become_children_witness :
  let h :=
    [Node None (HTMLElement (Element.mk "li" "" [] [] []));
     Node None (HTMLElement (Element.mk "li" "" [] [] []))] in
  ∃ h',
    @dollar sample_host "ul" (VNode <$> [0; 1]) h = (h', Normal 2) ∧
    length h' = 3 ∧
    element_at h' 2 = Some (with_childNodes [0; 1] (fresh_element "ul")).
Proof.
  intros h.
  destruct (@elements_become_children sample_host "ul" [0; 1] h eq_refl)
    as (h' & Hrun & Hlen & Hel & _).
  - apply NoDup_cons. split; [|apply NoDup_singleton].
    by intros ?%list_elem_of_singleton.
  - intros c [->|[->|Hc]%elem_of_cons]%elem_of_cons; [by eexists..|].
    by apply elem_of_nil in Hc.
  - by exists h'.
Defined.

Lemma child_is_moved_witness :
  let h :=
    [Node None (HTMLElement (Element.mk "ul" "" [] [1] []));
     Node (Some 0) (HTMLElement (Element.mk "li" "" [] [] []))] in
  ∃ h',
    @dollar sample_host "ol" [VNode 1] h = (h', Normal 2) ∧
    h' !! 0 = Some (Node None (HTMLElement (Element.mk "ul" "" [] [] []))) ∧
    h' !! 1 = Some (Node (Some 2) (HTMLElement (Element.mk "li" "" [] [] []))).
Proof.
  intros h.
  destruct (@child_is_moved sample_host "ol" 1 0 None
              (Element.mk "li" "" [] [] []) (Element.mk "ul" "" [] [1] []) h
              eq_refl eq_refl eq_refl)
    as (h' & Hrun & _ & Hp & Hc & _); [done|].
  by exists h'.
Defined.

Lemma quiet_call_extends_store_witness :
  let h := [Node None (Text "kept")] in
  let rest := [VString "a"; VFunction 3; VObject [("title", VString "t")]] in
  ∃ h',
    @dollar sample_host "p" rest h = (h', Normal 1) ∧
    take 1 h' = h ∧
    ∃ fields children, shape 1 h' None 1 (TElement fields children).
Proof.
  intros h rest. eexists. split; [vm_compute; reflexivity|].
  apply (@quiet_call_extends_store sample_host "p" rest h).
  - apply Forall_cons_2; [exact I|].
    apply Forall_cons_2; [apply sample_callable_3_quiet|].
    apply Forall_cons_2; [|apply Forall_nil_2].
    apply Forall_cons_2; [|apply Forall_nil_2].
    intros _. apply tree_function_quiet.
    eapply tree_function_ext; [|apply (sample_title_write (VString "t"))].
    by intros l h0.
  - vm_compute. reflexivity.
Defined.
